(** * The training driver of iam-reproduce ([main.py])

    The driver collects fixed-length rollouts from a vector of environments,
    stores them in a [RolloutStorage], asks the storage for returns and the
    agent for one update per cycle.  This file embeds [main] as a function in a
    state-and-exception monad over an explicit world, with the environment
    vector, the policy, the agent, the discriminator and the random
    generators taken through the interface [Collaborators]. *)

From Stdlib Require Import ZArith QArith Qcanon Lia.
From stdpp Require Import base numbers option list gmap strings.

(** ** Python arithmetic and exceptions *)

Module Py.

Inductive precondition :=
| InsertIntoFullBuffer
| UpdateOnPartialBuffer
| MiniBatchMisaligned.

Inductive exn :=
| ZeroDivisionError
| IndexError
| TypeError
| AssertionError
| UnboundLocalError
| PreconditionViolation (p : precondition).

#[export] Instance precondition_eq_dec : EqDecision precondition.
Proof. solve_decision. Defined.
#[export] Instance exn_eq_dec : EqDecision exn.
Proof. solve_decision. Defined.

(** [a // b] on Python integers: floor division, raising on a zero divisor. *)
Definition floordiv (a b : Z) : exn + Z :=
  if decide (b = 0%Z) then inl ZeroDivisionError else inr (a `div` b)%Z.

(** [a % b] on Python integers: the sign follows the divisor. *)
Definition modulo (a b : Z) : exn + Z :=
  if decide (b = 0%Z) then inl ZeroDivisionError else inr (a `mod` b)%Z.

(** [int(x)] on a finite number: truncation towards zero. *)
Definition int (x : Qc) : Z := (Qnum x `quot` Z.pos (Qden x))%Z.

(** [range(n)]: empty when [n] is not positive. *)
Definition range (n : Z) : list nat := seq 0 (Z.to_nat n).

End Py.
Import Py.

(** ** Command-line arguments read by [main] *)

Inductive Algo := a2c | ppo | acktr.

#[export] Instance Algo_eq_dec : EqDecision Algo.
Proof. solve_decision. Defined.

Record Args := {
  seed : Z;
  algo : Algo;
  gail : bool;
  gail_epoch : Z;
  num_steps : nat;
  num_processes : nat;
  num_env_steps : Qc;
  num_mini_batch : Z;
  use_linear_lr_decay : bool;
  lr : Qc;
  flicker : bool;
  use_gae : bool;
  gamma : Qc;
  gae_lambda : Qc;
  use_proper_time_limits : bool;
  recurrent_policy : bool;
  IAM : bool;
  save_interval : Z;
  save_dir : string;
  log_interval : Z;
  eval_interval : option Z;
  log_dir : string;
}.

(** ** Tensors

    A tensor of shape [N, ...] over the lanes is a list over the lanes; a
    tensor of shape [T, N, ...] is a list of such rows.  Scalars are exact
    rationals. *)

Abbreviation row := (list Qc).

(** [info] dictionaries returned by the environment vector. *)
Inductive info_value :=
| IVFlag (b : bool)
| IVEpisode (r : Qc).

Abbreviation info := (gmap string info_value).

(** Observation, hidden-state and action of one lane. *)
Class Spaces := {
  Obs : Type;
  Hid : Type;
  Act : Type;
  obs_zero : Obs;
  hid_zero : Hid;
  act_zero : Act;
}.

(** ** The rollout storage *)

Section Storage.
Context `{Spaces}.

Record RolloutStorage := {
  capacity : nat;
  obs : list (list Obs);
  recurrent_hidden_states : list (list Hid);
  rewards : list row;
  value_preds : list row;
  returns : list row;
  action_log_probs : list row;
  actions : list (list Act);
  masks : list row;
  bad_masks : list row;
  step : nat;
}.

(** Modelled from the spec: the constructor of [RolloutStorage]
    (a2c_ppo_acktr/storage.py is not part of the sources).  The buffer has
    T+1 slots for observations, hidden states and both masks, and T slots
    for the per-transition fields; nothing is filled.  The spec does not
    give the blank contents: zeros are used, and ones for the two masks. *)
Definition RolloutStorage_new (T N : nat) : RolloutStorage := {|
  capacity := T;
  obs := replicate (S T) (replicate N obs_zero);
  recurrent_hidden_states := replicate (S T) (replicate N hid_zero);
  rewards := replicate T (replicate N 0%Qc);
  value_preds := replicate (S T) (replicate N 0%Qc);
  returns := replicate T (replicate N 0%Qc);
  action_log_probs := replicate T (replicate N 0%Qc);
  actions := replicate T (replicate N act_zero);
  masks := replicate (S T) (replicate N 1%Qc);
  bad_masks := replicate (S T) (replicate N 1%Qc);
  step := 0;
|}.

(** [rollouts.obs[0].copy_(obs)] (main.py line 116). *)
Definition seed_slot0 (o : list Obs) (b : RolloutStorage) : RolloutStorage := {|
  capacity := capacity b;
  obs := <[0 := o]> (obs b);
  recurrent_hidden_states := recurrent_hidden_states b;
  rewards := rewards b;
  value_preds := value_preds b;
  returns := returns b;
  action_log_probs := action_log_probs b;
  actions := actions b;
  masks := masks b;
  bad_masks := bad_masks b;
  step := step b;
|}.

(** [rollouts.rewards[step] = r] (main.py line 184). *)
Definition set_reward (t : nat) (r : row) (b : RolloutStorage) : RolloutStorage := {|
  capacity := capacity b;
  obs := obs b;
  recurrent_hidden_states := recurrent_hidden_states b;
  rewards := <[t := r]> (rewards b);
  value_preds := value_preds b;
  returns := returns b;
  action_log_probs := action_log_probs b;
  actions := actions b;
  masks := masks b;
  bad_masks := bad_masks b;
  step := step b;
|}.

(** Modelled from the spec: [RolloutStorage.insert] (storage.py is not part
    of the sources).  "Appends to the next free slot; fails (precondition
    violation) if the buffer already holds T filled transition slots since
    the last after_update."  The transition fields go to slot [step], the
    observation, hidden state and masks that follow it to slot [step+1]. *)
Definition insert (o : list Obs) (h : list Hid) (a : list Act)
    (lp v r m bm : row) (b : RolloutStorage) : exn + RolloutStorage :=
  if decide (capacity b ≤ step b)
  then inl (PreconditionViolation InsertIntoFullBuffer)
  else inr {|
    capacity := capacity b;
    obs := <[S (step b) := o]> (obs b);
    recurrent_hidden_states := <[S (step b) := h]> (recurrent_hidden_states b);
    rewards := <[step b := r]> (rewards b);
    value_preds := <[step b := v]> (value_preds b);
    returns := returns b;
    action_log_probs := <[step b := lp]> (action_log_probs b);
    actions := <[step b := a]> (actions b);
    masks := <[S (step b) := m]> (masks b);
    bad_masks := <[S (step b) := bm]> (bad_masks b);
    step := S (step b);
  |}.

(** Slot 0 of a [T+1]-slot field takes the contents of slot [T]. *)
Definition carry {A} (T : nat) (l : list A) : list A :=
  match l !! T with
  | Some x => <[0 := x]> l
  | None => l
  end.

(** Modelled from the spec: [RolloutStorage.after_update] (storage.py is not
    part of the sources).  "Copies slot T's observation/hidden-state/mask
    into slot 0 and discards the rest; it does not reset rewards/actions":
    the three fields are carried forward, the filled count returns to 0,
    every other cell keeps its contents until it is overwritten. *)
Definition after_update (b : RolloutStorage) : RolloutStorage := {|
  capacity := capacity b;
  obs := carry (capacity b) (obs b);
  recurrent_hidden_states := carry (capacity b) (recurrent_hidden_states b);
  rewards := rewards b;
  value_preds := value_preds b;
  returns := returns b;
  action_log_probs := action_log_probs b;
  actions := actions b;
  masks := carry (capacity b) (masks b);
  bad_masks := bad_masks b;
  step := 0;
|}.

(** ** Returns and advantages *)

(** Cell [x[t][i]] of a tensor of shape [T, N]. *)
Definition cell (x : list row) (t i : nat) : Qc :=
  default 0%Qc (x !! t ≫= (.!! i)).

Inductive estimator_mode :=
| NStep
| GAE (proper : bool)
| PassThrough.

Definition select_mode (use_gae proper : bool) : estimator_mode :=
  if use_gae then GAE proper
  else if proper then PassThrough else NStep.

Section Lane.
(** One lane: rewards [r], value estimates [v] (with [v T] the bootstrap
    value), continuation masks [m] and valid masks [bm], as functions of
    the slot. *)
Variables (γ lam : Qc) (r v m bm : nat → Qc) (boot : Qc).

(** Modelled from the spec: the estimator of storage.py, which is not part
    of the sources, mode 1.  "return[t] = reward[t] + γ·mask[t+1]·return[t+1],
    seeded with return[T] = bootstrap value."  [k] counts the slots left
    up to [T]. *)
Fixpoint nstep_from (k t : nat) : Qc :=
  match k with
  | 0 => boot
  | S k' => (r t + γ * m (S t) * nstep_from k' (S t))%Qc
  end.

(** Modelled from the spec: the estimator of storage.py, which is not part
    of the sources, mode 2.  "δ = reward[t] + γ·value[t+1]·mask[t+1] − value[t];
    advantage[t] = δ + γ·λ·mask[t+1]·advantage[t+1] (advantage[T] = 0)";
    with proper time limits, at a step flagged invalid the stored value
    estimate stands in place of the raw reward term. *)
Fixpoint gae_from (proper : bool) (k t : nat) : Qc :=
  match k with
  | 0 => 0%Qc
  | S k' =>
      let rt := if proper && bool_decide (bm (S t) = 0%Qc) then v t else r t in
      let δ := (rt + γ * v (S t) * m (S t) - v t)%Qc in
      (δ + γ * lam * m (S t) * gae_from proper k' (S t))%Qc
  end.

(** Modelled from the spec: the estimator of storage.py, which is not part
    of the sources, mode 3.  "Returns are computed as in (1) but gated
    per-step by valid_mask"; where the gate is closed the value estimate
    is used in place of the return (glossary, bootstrap value). *)
Fixpoint pass_from (k t : nat) : Qc :=
  match k with
  | 0 => boot
  | S k' =>
      (bm (S t) * (r t + γ * m (S t) * pass_from k' (S t))
       + (1 - bm (S t)) * v t)%Qc
  end.

(** return[t] for a horizon of [T] slots. *)
Definition return_at (mode : estimator_mode) (T t : nat) : Qc :=
  match mode with
  | NStep => nstep_from (T - t) t
  | GAE proper => (gae_from proper (T - t) t + v t)%Qc
  | PassThrough => pass_from (T - t) t
  end.
End Lane.

(** Value estimates of lane [i], with the bootstrap value at slot [T]. *)
Definition lane_values (b : RolloutStorage) (next_value : row) (i t : nat) : Qc :=
  if decide (t = capacity b) then default 0%Qc (next_value !! i)
  else cell (value_preds b) t i.

(** The return/advantage table: T rows aligned with slots 0..T-1, one
    entry per lane of the bootstrap value. *)
Definition return_table (next_value : row) (use_gae : bool) (γ lam : Qc)
    (proper : bool) (b : RolloutStorage) : list row :=
  (λ t, (λ i,
      return_at γ lam
        (λ t, cell (rewards b) t i) (lane_values b next_value i)
        (λ t, cell (masks b) t i) (λ t, cell (bad_masks b) t i)
        (default 0%Qc (next_value !! i))
        (select_mode use_gae proper) (capacity b) t)
    <$> seq 0 (length next_value))
  <$> seq 0 (capacity b).

(** [rollouts.compute_returns(next_value, use_gae, gamma, gae_lambda,
    use_proper_time_limits)]: [main] discards the result of the call, so
    the table is left in the storage for the agent. *)
Definition compute_returns (next_value : row) (use_gae : bool) (γ lam : Qc)
    (proper : bool) (b : RolloutStorage) : RolloutStorage := {|
  capacity := capacity b;
  obs := obs b;
  recurrent_hidden_states := recurrent_hidden_states b;
  rewards := rewards b;
  value_preds := value_preds b;
  returns := return_table next_value use_gae γ lam proper b;
  action_log_probs := action_log_probs b;
  actions := actions b;
  masks := masks b;
  bad_masks := bad_masks b;
  step := step b;
|}.

End Storage.

Arguments RolloutStorage {_}.

(** ** Collaborators of the driver

    Everything [main] imports from outside its own file: the generators of
    torch and numpy, the environment vector, the policy with its agent, and
    the discriminator.  Their calls are total functions of the state they
    read, returning the state they leave. *)

Class Collaborators `{Spaces} := {
  TorchGen : Type;
  NpGen : Type;
  EnvVec : Type;
  Agent : Type;
  Discr : Type;
  (** [torch.manual_seed], [torch.cuda.manual_seed_all] *)
  manual_seed : Z → TorchGen;
  (** [make_vec_envs(args.env_name, args.seed, args.num_processes, ...)] *)
  make_vec_envs : Args → EnvVec;
  (** [len(envs.observation_space.shape)] *)
  observation_rank : EnvVec → nat;
  (** [len(envs.action_space.shape)] *)
  action_rank : EnvVec → nat;
  envs_reset : EnvVec → list Obs * EnvVec;
  envs_step : EnvVec → list Act → (list Obs * row * list bool * list info) * EnvVec;
  (** [envs.venv.eval()] *)
  envs_eval : EnvVec → EnvVec;
  (** [IAMPolicy(...)] followed by the constructor of the chosen algorithm *)
  make_agent : Args → EnvVec → TorchGen → Agent * TorchGen;
  act : Agent → TorchGen → list Obs → list Hid → row →
        (row * list Act * row * list Hid) * TorchGen;
  get_value : Agent → list Obs → list Hid → row → row;
  optimizer_lr : Agent → Qc;
  update_linear_schedule : Agent → Z → Z → Qc → Agent;
  agent_update : Agent → TorchGen → RolloutStorage → (Agent * (Qc * Qc * Qc)) * TorchGen;
  make_discriminator : Args → EnvVec → TorchGen → Discr * TorchGen;
  discr_update : Discr → TorchGen → RolloutStorage → EnvVec → Discr * TorchGen;
  predict_reward : Discr → list Obs → list Act → Qc → row → row * Discr;
  (** [np.random.uniform(0, 1, (n,))] on numpy's global generator *)
  np_uniform : NpGen → nat → row * NpGen;
  (** [os.path.expanduser] *)
  expanduser : string → string;
}.

Section Driver.
Context `{Collaborators}.

(** *** Calls observed during a run, in the order in which they happen *)

Inductive Event :=
| EvManualSeed (s : Z)
| EvReset (o : list Obs)
| EvSeedSlot0 (o : list Obs)
| EvLrDecay (j : nat)
| EvAct (o : list Obs) (h : list Hid) (m : row) (grad : bool)
| EvStep (a : list Act) (o : list Obs) (r : row) (done : list bool) (infos : list info)
| EvFlicker (draws : row)
| EvInsert (o : list Obs) (h : list Hid) (a : list Act) (lp v r m bm : row)
| EvGetValue (o : list Obs) (h : list Hid) (m : row) (grad : bool) (v : row)
| EvEnvEval
| EvDiscrUpdate
| EvPredictReward (t : nat) (o : list Obs) (a : list Act) (γ : Qc) (m : row) (r : row)
| EvComputeReturns (next_value : row) (gae : bool) (γ lam : Qc) (proper : bool)
| EvUpdate (value_loss action_loss dist_entropy : Qc)
| EvAfterUpdate
| EvSave (j : nat)
| EvPrint (j : nat) (total_num_steps : Z)
| EvEvaluate (j : nat)
| EvDump (file : string) (data : row).

(** *** The world of [main] *)

Record World := {
  torch : TorchGen;
  numpy : NpGen;
  envs : EnvVec;
  agent : Agent;
  discr : option Discr;
  rollouts : RolloutStorage;
  grad_enabled : bool;
  episode_rewards : row;
  mean_episode_rewards : row;
  max_episode_rewards : row;
  log : list Event;   (* newest first *)
}.

Definition with_torch (g : TorchGen) (w : World) : World :=
  {| torch := g; numpy := numpy w; envs := envs w; agent := agent w;
     discr := discr w; rollouts := rollouts w; grad_enabled := grad_enabled w;
     episode_rewards := episode_rewards w;
     mean_episode_rewards := mean_episode_rewards w;
     max_episode_rewards := max_episode_rewards w; log := log w |}.

Definition with_numpy (g : NpGen) (w : World) : World :=
  {| torch := torch w; numpy := g; envs := envs w; agent := agent w;
     discr := discr w; rollouts := rollouts w; grad_enabled := grad_enabled w;
     episode_rewards := episode_rewards w;
     mean_episode_rewards := mean_episode_rewards w;
     max_episode_rewards := max_episode_rewards w; log := log w |}.

Definition with_envs (e : EnvVec) (w : World) : World :=
  {| torch := torch w; numpy := numpy w; envs := e; agent := agent w;
     discr := discr w; rollouts := rollouts w; grad_enabled := grad_enabled w;
     episode_rewards := episode_rewards w;
     mean_episode_rewards := mean_episode_rewards w;
     max_episode_rewards := max_episode_rewards w; log := log w |}.

Definition with_agent (a : Agent) (w : World) : World :=
  {| torch := torch w; numpy := numpy w; envs := envs w; agent := a;
     discr := discr w; rollouts := rollouts w; grad_enabled := grad_enabled w;
     episode_rewards := episode_rewards w;
     mean_episode_rewards := mean_episode_rewards w;
     max_episode_rewards := max_episode_rewards w; log := log w |}.

Definition with_discr (d : option Discr) (w : World) : World :=
  {| torch := torch w; numpy := numpy w; envs := envs w; agent := agent w;
     discr := d; rollouts := rollouts w; grad_enabled := grad_enabled w;
     episode_rewards := episode_rewards w;
     mean_episode_rewards := mean_episode_rewards w;
     max_episode_rewards := max_episode_rewards w; log := log w |}.

Definition with_rollouts (b : RolloutStorage) (w : World) : World :=
  {| torch := torch w; numpy := numpy w; envs := envs w; agent := agent w;
     discr := discr w; rollouts := b; grad_enabled := grad_enabled w;
     episode_rewards := episode_rewards w;
     mean_episode_rewards := mean_episode_rewards w;
     max_episode_rewards := max_episode_rewards w; log := log w |}.

Definition with_grad (g : bool) (w : World) : World :=
  {| torch := torch w; numpy := numpy w; envs := envs w; agent := agent w;
     discr := discr w; rollouts := rollouts w; grad_enabled := g;
     episode_rewards := episode_rewards w;
     mean_episode_rewards := mean_episode_rewards w;
     max_episode_rewards := max_episode_rewards w; log := log w |}.

Definition with_episode_rewards (l : row) (w : World) : World :=
  {| torch := torch w; numpy := numpy w; envs := envs w; agent := agent w;
     discr := discr w; rollouts := rollouts w; grad_enabled := grad_enabled w;
     episode_rewards := l;
     mean_episode_rewards := mean_episode_rewards w;
     max_episode_rewards := max_episode_rewards w; log := log w |}.

Definition with_means (mean max : row) (w : World) : World :=
  {| torch := torch w; numpy := numpy w; envs := envs w; agent := agent w;
     discr := discr w; rollouts := rollouts w; grad_enabled := grad_enabled w;
     episode_rewards := episode_rewards w;
     mean_episode_rewards := mean;
     max_episode_rewards := max; log := log w |}.

Definition with_log (l : list Event) (w : World) : World :=
  {| torch := torch w; numpy := numpy w; envs := envs w; agent := agent w;
     discr := discr w; rollouts := rollouts w; grad_enabled := grad_enabled w;
     episode_rewards := episode_rewards w;
     mean_episode_rewards := mean_episode_rewards w;
     max_episode_rewards := max_episode_rewards w; log := l |}.

(** The calls of a run, oldest first. *)
Definition events (w : World) : list Event := reverse (log w).

(** *** The monad of the driver: state, and Python exceptions *)

Definition M (A : Type) : Type := World → exn + (A * World).

#[export] Instance M_ret : MRet M := λ A a w, inr (a, w).
#[export] Instance M_bind : MBind M := λ A B f m w,
  match m w with
  | inl e => inl e
  | inr (a, w') => f a w'
  end.

Definition gets {A} (f : World → A) : M A := λ w, inr (f w, w).
Definition modify (f : World → World) : M unit := λ w, inr (tt, f w).
Definition raise {A} (e : exn) : M A := λ _, inl e.
Definition lift {A} (x : exn + A) : M A := λ w,
  match x with
  | inl e => inl e
  | inr a => inr (a, w)
  end.
Definition emit (ev : Event) : M unit := modify (λ w, with_log (ev :: log w) w).
Definition when (c : bool) (m : M unit) : M unit := if c then m else mret tt.

(** [for x in l: body x] *)
Fixpoint for_each {A} (l : list A) (body : A → M unit) : M unit :=
  match l with
  | [] => mret tt
  | x :: l' => body x ≫= λ _, for_each l' body
  end.

(** [with torch.no_grad(): m]: gradient tracking is off inside, and put
    back as it was on the way out. *)
Definition no_grad {A} (m : M A) : M A :=
  prev ← gets grad_enabled;
  _ ← modify (with_grad false);
  a ← m;
  _ ← modify (with_grad prev);
  mret a.

(** [x[i]] on the first axis of a tensor, for [i] counted from the front. *)
Definition item {A} (l : list A) (i : nat) : M A :=
  match l !! i with
  | Some x => mret x
  | None => raise IndexError
  end.

(** [x[-1]] on the first axis of a tensor. *)
Definition last_item {A} (l : list A) : M A :=
  match last l with
  | Some x => mret x
  | None => raise IndexError
  end.

(** *** The collection loop (main.py lines 138-165) *)

(** Lines 140-143: [actor_critic.act] on slot [t], under [no_grad]. *)
Definition sample_actions (t : nat) : M (row * list Act * row * list Hid) :=
  no_grad (
    b ← gets rollouts;
    o ← item (obs b) t;
    h ← item (recurrent_hidden_states b) t;
    m ← item (masks b) t;
    ag ← gets agent;
    g ← gets torch;
    ge ← gets grad_enabled;
    _ ← emit (EvAct o h m ge);
    _ ← modify (with_torch (act ag g o h m).2);
    mret (act ag g o h m).1).

Definition half : Qc := Q2Qc (1 # 2).

(** Line 151, the mask [prob_flicker > 0.5] on one draw. *)
Definition flickered (u : Qc) : bool := bool_decide (half < u)%Qc.

(** Line 151: [obs[prob_flicker > 0.5] = 0]. *)
Definition flicker_obs (draws : row) (o : list Obs) : list Obs :=
  imap (λ i x,
    match draws !! i with
    | Some u => if flickered u then obs_zero else x
    | None => x
    end) o.

(** Lines 149-151. *)
Definition flicker_step (a : Args) (o : list Obs) : M (list Obs) :=
  if flicker a then
    g ← gets numpy;
    _ ← modify (with_numpy (np_uniform g (length o)).2);
    _ ← emit (EvFlicker (np_uniform g (length o)).1);
    mret (flicker_obs (np_uniform g (length o)).1 o)
  else mret o.

(** [deque(maxlen=n).append(x)] *)
Definition deque_append (maxlen : nat) (x : Qc) (l : row) : row :=
  if decide (maxlen < length (l ++ [x])) then drop 1 (l ++ [x]) else l ++ [x].

(** Lines 154-156. *)
Definition record_episodes (infos : list info) : M unit :=
  for_each infos (λ i,
    match i !! "episode" with
    | Some (IVEpisode r) =>
        modify (λ w, with_episode_rewards (deque_append 10 r (episode_rewards w)) w)
    | Some (IVFlag _) => raise TypeError
    | None => mret tt
    end).

(** Lines 159-160: [[0.0] if done_ else [1.0]]. *)
Definition done_mask (d : bool) : Qc := if d then 0%Qc else 1%Qc.

(** Lines 161-163: [[0.0] if 'bad_transition' in info.keys() else [1.0]]. *)
Definition bad_mask (i : info) : Qc :=
  if bool_decide ("bad_transition" ∈ dom i) then 0%Qc else 1%Qc.

(** One pass through the body of the inner loop. *)
Definition collect_step (a : Args) (t : nat) : M unit :=
  '(value, action, action_log_prob, hid) ← sample_actions t;
  e ← gets envs;
  let '(o, reward, done, infos, e') := envs_step e action in
  _ ← modify (with_envs e');
  _ ← emit (EvStep action o reward done infos);
  o ← flicker_step a o;
  _ ← record_episodes infos;
  _ ← emit (EvInsert o hid action action_log_prob value reward
              (done_mask <$> done) (bad_mask <$> infos));
  b ← gets rollouts;
  b' ← lift (insert o hid action action_log_prob value reward
               (done_mask <$> done) (bad_mask <$> infos) b);
  modify (with_rollouts b').

Definition collect (a : Args) : M unit :=
  for_each (seq 0 (num_steps a)) (collect_step a).

(** *** Bootstrap value (lines 167-170) *)

Definition bootstrap_value : M row :=
  no_grad (
    b ← gets rollouts;
    o ← last_item (obs b);
    h ← last_item (recurrent_hidden_states b);
    m ← last_item (masks b);
    ag ← gets agent;
    ge ← gets grad_enabled;
    _ ← emit (EvGetValue o h m ge (get_value ag o h m));
    mret (get_value ag o h m)).

(** *** Discriminator rewards (lines 172-186) *)

Definition get_discr : M Discr :=
  d ← gets discr;
  match d with
  | Some d => mret d
  | None => raise UnboundLocalError
  end.

Definition discr_update_step : M unit :=
  d ← get_discr;
  g ← gets torch;
  b ← gets rollouts;
  e ← gets envs;
  _ ← emit EvDiscrUpdate;
  _ ← modify (with_discr (Some (discr_update d g b e).1));
  modify (with_torch (discr_update d g b e).2).

(** Lines 184-186: [rollouts.rewards[step] = discr.predict_reward(...)]. *)
Definition predict_step (a : Args) (t : nat) : M unit :=
  d ← get_discr;
  b ← gets rollouts;
  o ← item (obs b) t;
  ac ← item (actions b) t;
  m ← item (masks b) t;
  _ ← emit (EvPredictReward t o ac (gamma a) m (predict_reward d o ac (gamma a) m).1);
  _ ← modify (with_discr (Some (predict_reward d o ac (gamma a) m).2));
  if decide (t < length (rewards b))
  then modify (with_rollouts (set_reward t (predict_reward d o ac (gamma a) m).1 b))
  else raise IndexError.

Definition gail_phase (a : Args) (j : nat) : M unit :=
  _ ← when (bool_decide (10 ≤ j))
        (_ ← emit EvEnvEval; modify (λ w, with_envs (envs_eval (envs w)) w));
  _ ← for_each (range (if decide (j < 10) then 100%Z else gail_epoch a))
        (λ _, discr_update_step);
  for_each (seq 0 (num_steps a)) (predict_step a).

(** *** Estimation, update and carry-forward (lines 188-193) *)

Definition estimate (a : Args) (next_value : row) : M unit :=
  _ ← emit (EvComputeReturns next_value (use_gae a) (gamma a) (gae_lambda a)
              (use_proper_time_limits a));
  modify (λ w, with_rollouts
    (compute_returns next_value (use_gae a) (gamma a) (gae_lambda a)
       (use_proper_time_limits a) (rollouts w)) w).

Definition partitions (k n : Z) : Prop := k ≠ 0%Z ∧ (n `mod` k = 0)%Z.

#[export] Instance partitions_dec k n : Decision (partitions k n).
Proof. unfold partitions. apply _. Defined.

(** Modelled from the spec: the entry of [agent.update] (a2c_ppo_acktr/algo
    is not part of the sources).  "Update fails (precondition violation) if
    the buffer has fewer than T filled transitions, or if minibatch count
    does not evenly partition the lane count for recurrent replay"; past
    these checks the update pass is the collaborator's [agent_update]. *)
Definition update (a : Args) (ag : Agent) (g : TorchGen) (b : RolloutStorage)
    : exn + ((Agent * (Qc * Qc * Qc)) * TorchGen) :=
  if decide (step b < capacity b)
  then inl (PreconditionViolation UpdateOnPartialBuffer)
  else if bool_decide (algo a = ppo) && recurrent_policy a
          && negb (bool_decide (partitions (num_mini_batch a) (Z.of_nat (num_processes a))))
  then inl (PreconditionViolation MiniBatchMisaligned)
  else inr (agent_update ag g b).

Definition update_step (a : Args) : M unit :=
  ag ← gets agent;
  g ← gets torch;
  b ← gets rollouts;
  '(ag', (value_loss, action_loss, dist_entropy), g') ← lift (update a ag g b);
  _ ← modify (with_agent ag');
  _ ← modify (with_torch g');
  emit (EvUpdate value_loss action_loss dist_entropy).

Definition reset_step : M unit :=
  _ ← emit EvAfterUpdate;
  modify (λ w, with_rollouts (after_update (rollouts w)) w).

(** *** Learning-rate schedule, checkpoints and logs *)

(** Lines 132-136. *)
Definition lr_decay (a : Args) (num_updates : Z) (j : nat) : M unit :=
  ag ← gets agent;
  _ ← emit (EvLrDecay j);
  modify (with_agent
    (update_linear_schedule ag (Z.of_nat j) num_updates
       (if decide (algo a = acktr) then optimizer_lr ag else lr a))).

(** Lines 196-207. *)
Definition save_checkpoint (a : Args) (num_updates : Z) (j : nat) : M unit :=
  r ← lift (modulo (Z.of_nat j) (save_interval a));
  when (bool_decide (r = 0 ∨ Z.of_nat j = num_updates - 1)%Z
        && negb (bool_decide (save_dir a = "")))
    (emit (EvSave j)).

(** Lines 209-219.  The call records the iteration and the number of
    timesteps of the line; the rest of its text (the frames per second from
    the wall clock, the statistics of the deque, the losses) is left out. *)
Definition print_progress (a : Args) (j : nat) : M unit :=
  r ← lift (modulo (Z.of_nat j) (log_interval a));
  ep ← gets episode_rewards;
  when (bool_decide (r = 0%Z) && bool_decide (1 < length ep))
    (emit (EvPrint j ((Z.of_nat j + 1) * Z.of_nat (num_processes a)
                      * Z.of_nat (num_steps a))%Z)).

(** Lines 221-225.  The call records the iteration; the normaliser of the
    environments, whose [obs_rms] line 223 hands to [evaluate], is taken to
    be there. *)
Definition run_evaluation (a : Args) (j : nat) : M unit :=
  match eval_interval a with
  | None => mret tt
  | Some ei =>
      ep ← gets episode_rewards;
      if decide (1 < length ep) then
        r ← lift (modulo (Z.of_nat j) ei);
        when (bool_decide (r = 0%Z)) (emit (EvEvaluate j))
      else mret tt
  end.

Definition np_mean (l : row) : Qc :=
  (foldr Qcplus 0 l / Qc_of_Z (Z.of_nat (length l)))%Qc.

Definition np_amax (l : row) : Qc :=
  match l with
  | [] => 0%Qc
  | x :: l' => foldl (λ u v, if decide (u < v)%Qc then v else u) x l'
  end.

(** Lines 228-230, with [log_mean_interval = 10]. *)
Definition record_means (j : nat) : M unit :=
  ep ← gets episode_rewards;
  when (bool_decide (j `mod` 10 = 0) && bool_decide (1 < length ep))
    (modify (λ w, with_means (mean_episode_rewards w ++ [np_mean ep])
                             (max_episode_rewards w ++ [np_amax ep]) w)).

(** *** One training iteration (the body of the loop of line 130) *)

(** Lines 132-165: learning-rate schedule and the T collection steps. *)
Definition collection_phase (a : Args) (num_updates : Z) (j : nat) : M unit :=
  _ ← when (use_linear_lr_decay a) (lr_decay a num_updates j);
  collect a.

(** Lines 167-191: bootstrap value, discriminator rewards, returns, update. *)
Definition estimation_phase (a : Args) (j : nat) : M unit :=
  next_value ← bootstrap_value;
  _ ← when (gail a) (gail_phase a j);
  _ ← estimate a next_value;
  update_step a.

(** Lines 195-230. *)
Definition bookkeeping (a : Args) (num_updates : Z) (j : nat) : M unit :=
  _ ← save_checkpoint a num_updates j;
  _ ← print_progress a j;
  _ ← run_evaluation a j;
  record_means j.

Definition train_iteration (a : Args) (num_updates : Z) (j : nat) : M unit :=
  _ ← collection_phase a num_updates j;
  _ ← estimation_phase a j;
  _ ← reset_step;
  bookkeeping a num_updates j.

(** Lines 233-248, on the [log_dir] of line 50:
    [os.path.expanduser(args.log_dir)]. *)
Definition log_mean_file (a : Args) : string :=
  expanduser (log_dir a) +:+
    (if IAM a then "mean_rewards_IAM.txt"
     else if recurrent_policy a then "mean_rewards_GRU.txt"
     else if decide (num_steps a = 10) then "mean_rewards_FNN1.txt"
     else "mean_rewards_FNN8.txt").

Definition finalize (a : Args) : M unit :=
  means ← gets mean_episode_rewards;
  emit (EvDump (log_mean_file a) means).

(** *** [main] *)

(** Lines 127-128. *)
Definition num_updates (a : Args) : exn + Z :=
  match floordiv (int (num_env_steps a)) (Z.of_nat (num_steps a)) with
  | inl e => inl e
  | inr q => floordiv q (Z.of_nat (num_processes a))
  end.

(** Lines 41-124: seeding, construction of the collaborators and of the
    storage, first reset.  [np0] is the state in which numpy's global
    generator starts: [main] never seeds it.  With [gail], line 94 asserts
    that the observations are vectors and line 96 subscripts the shape of
    the action space, which fails on an empty shape. *)
Definition setup (a : Args) (np0 : NpGen) : exn + World :=
  let g := manual_seed (seed a) in
  let e := make_vec_envs a in
  let ag := make_agent a e g in
  if gail a && negb (bool_decide (observation_rank e = 1))
  then inl AssertionError
  else if gail a && bool_decide (action_rank e = 0)
  then inl IndexError
  else
    let d := if gail a then Some (make_discriminator a e ag.2) else None in
    let g' := match d with Some d => d.2 | None => ag.2 end in
    let r := envs_reset e in
    inr {|
      torch := g';
      numpy := np0;
      envs := r.2;
      agent := ag.1;
      discr := fst <$> d;
      rollouts := seed_slot0 r.1
                    (RolloutStorage_new (num_steps a) (num_processes a));
      grad_enabled := true;
      episode_rewards := [];
      mean_episode_rewards := [];
      max_episode_rewards := [];
      log := [EvSeedSlot0 r.1; EvReset r.1; EvManualSeed (seed a)];
    |}.

(** Lines 126-248. *)
Definition training (a : Args) : M unit :=
  nu ← lift (num_updates a);
  _ ← for_each (range nu) (train_iteration a nu);
  finalize a.

Definition main (a : Args) (np0 : NpGen) : exn + World :=
  match setup a np0 with
  | inl e => inl e
  | inr w =>
      match training a w with
      | inl e => inl e
      | inr (_, w') => inr w'
      end
  end.

(** ** A program logic for the driver

    [wp m Q E w]: run from [w], [m] either returns [a] in a world [w'] with
    [Q a w'], or raises [e] with [E e]. *)

Definition wp {A} (m : M A) (Q : A → World → Prop) (E : exn → Prop)
    (w : World) : Prop :=
  match m w with
  | inl e => E e
  | inr (a, w') => Q a w'
  end.

(** ** What the claims observe *)

(** The calls of the data flow: the seeding of slot 0 before the loop, and
    the six stages of one training iteration. *)
Inductive Stage :=
| SSeed
| SAct
| SStep
| SInsert
| SComputeReturns
| SUpdate
| SAfterUpdate.

#[export] Instance Stage_eq_dec : EqDecision Stage.
Proof. solve_decision. Defined.

Definition stage_of (ev : Event) : option Stage :=
  match ev with
  | EvSeedSlot0 _ => Some SSeed
  | EvAct _ _ _ _ => Some SAct
  | EvStep _ _ _ _ _ => Some SStep
  | EvInsert _ _ _ _ _ _ _ _ => Some SInsert
  | EvComputeReturns _ _ _ _ _ => Some SComputeReturns
  | EvUpdate _ _ _ => Some SUpdate
  | EvAfterUpdate => Some SAfterUpdate
  | _ => None
  end.

Definition stages (evs : list Event) : list Stage := omap stage_of evs.

Definition stage_rank (s : Stage) : nat :=
  match s with
  | SSeed => 0
  | SAct => 1
  | SStep => 2
  | SInsert => 3
  | SComputeReturns => 4
  | SUpdate => 5
  | SAfterUpdate => 6
  end.

(** No call of a later stage comes before a call of an earlier stage. *)
Definition stages_in_order (l : list Stage) : Prop :=
  ∀ p q s s', p < q → l !! p = Some s → l !! q = Some s' →
    stage_rank s ≤ stage_rank s'.

(** One collection step, and one whole iteration with [T] of them. *)
Definition round_stages : list Stage := [SAct; SStep; SInsert].

Definition cycle_stages (T : nat) : list Stage :=
  mjoin (replicate T round_stages) ++ [SComputeReturns; SUpdate; SAfterUpdate].

(** The calls that touch the fill level of the buffer. *)
Inductive BufferCall :=
| BInsert
| BUpdate
| BAfterUpdate.

Definition buffer_call_of (s : Stage) : option BufferCall :=
  match s with
  | SInsert => Some BInsert
  | SUpdate => Some BUpdate
  | SAfterUpdate => Some BAfterUpdate
  | _ => None
  end.

Definition buffer_calls (evs : list Event) : list BufferCall :=
  omap buffer_call_of (stages evs).

(** The two precondition violations of the buffer protocol are the only
    exceptions singled out; any other exception is [benign]. *)
Definition benign (e : exn) : Prop :=
  e ≠ PreconditionViolation InsertIntoFullBuffer
  ∧ e ≠ PreconditionViolation UpdateOnPartialBuffer.

(** Shape of a storage of horizon [T]. *)
Definition wf_storage (T : nat) (b : RolloutStorage) : Prop :=
  capacity b = T
  ∧ length (obs b) = S T
  ∧ length (recurrent_hidden_states b) = S T
  ∧ length (masks b) = S T
  ∧ length (rewards b) = T
  ∧ length (actions b) = T.

(** [w] is the world in which iteration [j] of the loop of line 130 starts,
    in the run of [main] on [a] with numpy's generator starting in [np0]. *)
Definition at_iteration (a : Args) (np0 : NpGen) (nu : Z) (j : nat)
    (w : World) : Prop :=
  ∃ w0, setup a np0 = inr w0
    ∧ num_updates a = inr nu
    ∧ (Z.of_nat j < nu)%Z
    ∧ for_each (seq 0 j) (train_iteration a nu) w0 = inr (tt, w).

(** Number of calls of a given stage in a trace; update cycles and
    environment transitions of a run on [N] lanes. *)
Definition calls_of (s : Stage) (evs : list Event) : nat :=
  length (filter (λ s', s' = s) (stages evs)).

Definition update_cycles (evs : list Event) : nat := calls_of SUpdate evs.

Definition transitions (N : nat) (evs : list Event) : nat :=
  calls_of SStep evs * N.

(** ** Relations between the worlds before and after a phase *)

(** The environment vector never puts a flag under the key 'episode' of an
    info dictionary (line 156 subscripts the value with ['r']). *)
Definition env_typed : Prop :=
  ∀ e acts i b, i ∈ (envs_step e acts).1.2 → i !! "episode" ≠ Some (IVFlag b).

(** The minibatch count does not partition the lanes of a recurrent PPO
    update. *)
Definition misaligned (a : Args) : Prop :=
  algo a = ppo ∧ recurrent_policy a = true
  ∧ ¬ partitions (num_mini_batch a) (Z.of_nat (num_processes a)).

(** Slots [0..n-1] of the fields that the loops of [main] read exist. *)
Definition slots_exist (n : nat) (b : RolloutStorage) : Prop :=
  n ≤ length (obs b)
  ∧ n ≤ length (recurrent_hidden_states b)
  ∧ n ≤ length (masks b).

(** Slots [0..n-1] of the fields read and written by lines 183-186 exist. *)
Definition reward_slots_exist (n : nat) (b : RolloutStorage) : Prop :=
  n ≤ length (obs b)
  ∧ n ≤ length (actions b)
  ∧ n ≤ length (masks b)
  ∧ n ≤ length (rewards b).

(** Every slot that one iteration on horizon [T] touches exists. *)
Definition storage_ready (T : nat) (b : RolloutStorage) : Prop :=
  slots_exist (S T) b ∧ reward_slots_exist T b.

(** Only the episode statistics differ between [w] and [w']. *)
Definition stats_only (w w' : World) : Prop :=
  torch w' = torch w ∧ numpy w' = numpy w ∧ envs w' = envs w
  ∧ agent w' = agent w ∧ discr w' = discr w ∧ rollouts w' = rollouts w
  ∧ grad_enabled w' = grad_enabled w ∧ log w' = log w.

(** What one collection step does to the world. *)
Definition collect_step_result (a : Args) (t : nat) (w w' : World) : Prop :=
  ∃ o h m v ac lp hid g' o1 r d i e' o2,
    obs (rollouts w) !! t = Some o
    ∧ recurrent_hidden_states (rollouts w) !! t = Some h
    ∧ masks (rollouts w) !! t = Some m
    ∧ act (agent w) (torch w) o h m = (v, ac, lp, hid, g')
    ∧ envs_step (envs w) ac = (o1, r, d, i, e')
    ∧ o2 = (if flicker a
            then flicker_obs (np_uniform (numpy w) (length o1)).1 o1
            else o1)
    ∧ events w' = events w
        ++ [EvAct o h m false; EvStep ac o1 r d i]
        ++ (if flicker a
            then [EvFlicker (np_uniform (numpy w) (length o1)).1] else [])
        ++ [EvInsert o2 hid ac lp v r (done_mask <$> d) (bad_mask <$> i)]
    ∧ insert o2 hid ac lp v r (done_mask <$> d) (bad_mask <$> i) (rollouts w)
        = inr (rollouts w')
    ∧ agent w' = agent w
    ∧ discr w' = discr w
    ∧ grad_enabled w' = grad_enabled w.

(** State of the collection loop after [k] steps from [w]. *)
Definition collect_progress (k : nat) (w w' : World) : Prop :=
  (∃ evs, events w' = events w ++ evs
          ∧ stages evs = mjoin (replicate k round_stages))
  ∧ capacity (rollouts w') = capacity (rollouts w)
  ∧ step (rollouts w') = step (rollouts w) + k
  ∧ length (obs (rollouts w')) = length (obs (rollouts w))
  ∧ length (recurrent_hidden_states (rollouts w'))
      = length (recurrent_hidden_states (rollouts w))
  ∧ length (masks (rollouts w')) = length (masks (rollouts w))
  ∧ length (rewards (rollouts w')) = length (rewards (rollouts w))
  ∧ length (actions (rollouts w')) = length (actions (rollouts w))
  ∧ obs (rollouts w') !! 0 = obs (rollouts w) !! 0
  ∧ grad_enabled w' = grad_enabled w
  ∧ (is_Some (discr w) → is_Some (discr w')).

(** The world after a phase that leaves the storage alone and calls no
    stage of the data flow. *)
Definition quiet (w w' : World) : Prop :=
  (∃ evs, events w' = events w ++ evs ∧ stages evs = [])
  ∧ rollouts w' = rollouts w
  ∧ grad_enabled w' = grad_enabled w
  ∧ (is_Some (discr w) → is_Some (discr w')).

(** Storages that differ in their rewards only. *)
Definition same_but_rewards (b b' : RolloutStorage) : Prop :=
  capacity b' = capacity b
  ∧ step b' = step b
  ∧ obs b' = obs b
  ∧ recurrent_hidden_states b' = recurrent_hidden_states b
  ∧ masks b' = masks b
  ∧ bad_masks b' = bad_masks b
  ∧ actions b' = actions b
  ∧ value_preds b' = value_preds b
  ∧ length (rewards b') = length (rewards b).

(** The discriminator rewards written to slots [0..k-1], with the calls
    [prs] that produced them, on the storage [b] in which the phase began. *)
Definition predicted (a : Args) (k : nat) (b b' : RolloutStorage)
    (prs : list Event) : Prop :=
  length prs = k
  ∧ ∀ t, t < k → ∃ d o ac m,
      obs b !! t = Some o
      ∧ actions b !! t = Some ac
      ∧ masks b !! t = Some m
      ∧ prs !! t = Some (EvPredictReward t o ac (gamma a) m
                           (predict_reward d o ac (gamma a) m).1)
      ∧ rewards b' !! t = Some (predict_reward d o ac (gamma a) m).1.

Definition predict_progress (a : Args) (k : nat) (w w' : World) : Prop :=
  same_but_rewards (rollouts w) (rollouts w')
  ∧ grad_enabled w' = grad_enabled w
  ∧ (∃ prs, events w' = events w ++ prs
            ∧ predicted a k (rollouts w) (rollouts w') prs)
  ∧ (is_Some (discr w) → is_Some (discr w')).

(** What the discriminator phase does to the world. *)
Definition gail_result (a : Args) (w w' : World) : Prop :=
  same_but_rewards (rollouts w) (rollouts w')
  ∧ grad_enabled w' = grad_enabled w
  ∧ (∃ pre prs, events w' = events w ++ pre ++ prs
                ∧ stages pre = []
                ∧ predicted a (num_steps a) (rollouts w) (rollouts w') prs)
  ∧ (is_Some (discr w) → is_Some (discr w')).

(** What the estimation phase does to the world: the bootstrap value [nv]
    from the last slots, the calls [mid] of the discriminator phase leaving
    the storage [bg], then compute_returns on [bg] with [nv] and update. *)
Definition estimation_result (a : Args) (w w' : World) : Prop :=
  ∃ o h m nv mid bg l1 l2 l3,
    last (obs (rollouts w)) = Some o
    ∧ last (recurrent_hidden_states (rollouts w)) = Some h
    ∧ last (masks (rollouts w)) = Some m
    ∧ nv = get_value (agent w) o h m
    ∧ events w' = events w ++ [EvGetValue o h m false nv] ++ mid
        ++ [EvComputeReturns nv (use_gae a) (gamma a) (gae_lambda a)
              (use_proper_time_limits a);
            EvUpdate l1 l2 l3]
    ∧ stages mid = []
    ∧ (if gail a
       then ∃ pre prs, mid = pre ++ prs ∧ stages pre = []
              ∧ predicted a (num_steps a) (rollouts w) bg prs
       else mid = [] ∧ bg = rollouts w)
    ∧ same_but_rewards (rollouts w) bg
    ∧ rollouts w' = compute_returns nv (use_gae a) (gamma a) (gae_lambda a)
                      (use_proper_time_limits a) bg
    ∧ capacity (rollouts w) ≤ step (rollouts w)
    ∧ grad_enabled w' = grad_enabled w
    ∧ (is_Some (discr w) → is_Some (discr w')).

(** Net effect of one training iteration on the trace and on the shape of
    the storage. *)
Definition iteration_summary (a : Args) (w w' : World) : Prop :=
  (∃ evs, events w' = events w ++ evs
          ∧ stages evs = cycle_stages (num_steps a))
  ∧ capacity (rollouts w') = capacity (rollouts w)
  ∧ step (rollouts w') = 0
  ∧ length (obs (rollouts w')) = length (obs (rollouts w))
  ∧ length (recurrent_hidden_states (rollouts w'))
      = length (recurrent_hidden_states (rollouts w))
  ∧ length (masks (rollouts w')) = length (masks (rollouts w))
  ∧ length (rewards (rollouts w')) = length (rewards (rollouts w))
  ∧ length (actions (rollouts w')) = length (actions (rollouts w))
  ∧ grad_enabled w' = grad_enabled w
  ∧ (is_Some (discr w) → is_Some (discr w')).

(** State of the training loop after [k] iterations from [w]. *)
Definition training_progress (a : Args) (k : nat) (w w' : World) : Prop :=
  (∃ evs, events w' = events w ++ evs
          ∧ stages evs = mjoin (replicate k (cycle_stages (num_steps a))))
  ∧ capacity (rollouts w') = capacity (rollouts w)
  ∧ step (rollouts w') = 0
  ∧ length (obs (rollouts w')) = length (obs (rollouts w))
  ∧ length (recurrent_hidden_states (rollouts w'))
      = length (recurrent_hidden_states (rollouts w))
  ∧ length (masks (rollouts w')) = length (masks (rollouts w))
  ∧ length (rewards (rollouts w')) = length (rewards (rollouts w))
  ∧ length (actions (rollouts w')) = length (actions (rollouts w))
  ∧ grad_enabled w' = grad_enabled w
  ∧ (is_Some (discr w) → is_Some (discr w')).

(** ** What the remaining properties observe *)

(** The episode returns found in the info dictionaries of one environment
    step, in the order of the lanes (lines 154-156). *)
Definition episode_returns (infos : list info) : row :=
  omap (λ i : info,
    match i !! "episode" with
    | Some (IVEpisode r) => Some r
    | _ => None
    end) infos.

(** The last [n] elements of a list. *)
Definition last_n {A} (n : nat) (l : list A) : list A :=
  drop (length l - n) l.

(** The episode returns reported by the environment steps of a trace. *)
Definition reported_returns (evs : list Event) : row :=
  mjoin ((λ ev,
    match ev with
    | EvStep _ _ _ _ infos => episode_returns infos
    | _ => []
    end) <$> evs).

(** The iterations at which a trace writes a checkpoint. *)
Definition checkpoints (evs : list Event) : list nat :=
  omap (λ ev, match ev with EvSave j => Some j | _ => None end) evs.

(** The calls of one collection step (lines 140-165). *)
Inductive collect_event (a : Args) : Event → Prop :=
| ce_act o h m : collect_event a (EvAct o h m false)
| ce_step ac o r d i : collect_event a (EvStep ac o r d i)
| ce_flicker u : flicker a = true → collect_event a (EvFlicker u)
| ce_insert o h ac lp v r d (i : list info) :
    collect_event a
      (EvInsert o h ac lp v r (done_mask <$> d) (bad_mask <$> i)).

(** The calls of an iteration outside its collection steps and its
    bookkeeping (lines 132-136 and 167-193). *)
Inductive estimation_event (a : Args) : Event → Prop :=
| ee_lr_decay j :
    use_linear_lr_decay a = true → estimation_event a (EvLrDecay j)
| ee_get_value o h m v : estimation_event a (EvGetValue o h m false v)
| ee_env_eval : gail a = true → estimation_event a EvEnvEval
| ee_discr_update : gail a = true → estimation_event a EvDiscrUpdate
| ee_predict t o ac m r :
    gail a = true → estimation_event a (EvPredictReward t o ac (gamma a) m r)
| ee_returns nv :
    estimation_event a
      (EvComputeReturns nv (use_gae a) (gamma a) (gae_lambda a)
         (use_proper_time_limits a))
| ee_update l1 l2 l3 : estimation_event a (EvUpdate l1 l2 l3)
| ee_after_update : estimation_event a EvAfterUpdate.

(** The calls of the bookkeeping of iteration [j] (lines 196-225), the
    deque of episode returns being [ep]. *)
Definition save_calls (a : Args) (nu : Z) (j : nat) : list Event :=
  if bool_decide (Z.of_nat j `mod` save_interval a = 0
                  ∨ Z.of_nat j = nu - 1)%Z
     && negb (bool_decide (save_dir a = ""))
  then [EvSave j] else [].

Definition print_calls (a : Args) (j : nat) (ep : row) : list Event :=
  if bool_decide (Z.of_nat j `mod` log_interval a = 0)%Z
     && bool_decide (1 < length ep)
  then [EvPrint j ((Z.of_nat j + 1) * Z.of_nat (num_processes a)
                   * Z.of_nat (num_steps a))%Z]
  else [].

Definition evaluate_calls (a : Args) (j : nat) (ep : row) : list Event :=
  match eval_interval a with
  | Some ei =>
      if bool_decide (1 < length ep)
         && bool_decide (Z.of_nat j `mod` ei = 0)%Z
      then [EvEvaluate j] else []
  | None => []
  end.

(** Only the trace differs between [w] and [w']. *)
Definition same_but_log (w w' : World) : Prop :=
  torch w' = torch w ∧ numpy w' = numpy w ∧ envs w' = envs w
  ∧ agent w' = agent w ∧ discr w' = discr w ∧ rollouts w' = rollouts w
  ∧ grad_enabled w' = grad_enabled w
  ∧ episode_rewards w' = episode_rewards w
  ∧ mean_episode_rewards w' = mean_episode_rewards w
  ∧ max_episode_rewards w' = max_episode_rewards w.

(** Iteration [j] of a run of [nu] updates writes a checkpoint (lines
    196-197). *)
Definition save_due (a : Args) (nu : Z) (j : nat) : Prop :=
  save_dir a ≠ ""
  ∧ (Z.of_nat j `mod` save_interval a = 0 ∨ Z.of_nat j = nu - 1)%Z.

#[export] Instance save_due_dec a nu j : Decision (save_due a nu j).
Proof. unfold save_due. apply _. Defined.

(** From a trace with [c] environment steps before it: every progress line
    reports [c * N] timesteps, [c] counting the environment steps up to the
    line. *)
Fixpoint prints_from (N c : nat) (evs : list Event) : Prop :=
  match evs with
  | [] => True
  | ev :: evs' =>
      match ev with
      | EvPrint _ n => n = Z.of_nat (c * N)
      | _ => True
      end
      ∧ prints_from N (c + calls_of SStep [ev]) evs'
  end.

(** Every progress line and every evaluation of the trace comes after at
    least two reported episode returns, [seen] of them being reported
    before the trace. *)
Fixpoint reports_from (seen : nat) (evs : list Event) : Prop :=
  match evs with
  | [] => True
  | ev :: evs' =>
      match ev with
      | EvPrint _ _ | EvEvaluate _ => 2 ≤ seen
      | _ => True
      end
      ∧ reports_from (seen + length (reported_returns [ev])) evs'
  end.

(** [me] and [mx] are the mean and the maximum of the deque of episode
    returns as it stands at some point of the trace [evs], where it holds
    at least two returns: the last ten returns reported up to that
    point. *)
Definition recorded_at (evs : list Event) (me mx : Qc) : Prop :=
  ∃ pre post,
    evs = pre ++ post
    ∧ 2 ≤ length (last_n 10 (reported_returns pre))
    ∧ me = np_mean (last_n 10 (reported_returns pre))
    ∧ mx = np_amax (last_n 10 (reported_returns pre)).


End Driver.

(** ** A small instance of the collaborators, to run the driver on *)

Module Toy.
#[export] Instance spaces : Spaces :=
  {| Obs := Z; Hid := Z; Act := Z; obs_zero := 0%Z; hid_zero := 0%Z; act_zero := 0%Z |}.

Definition toy_info (c : Z) (i : nat) : info :=
  if decide ((c + Z.of_nat i) `mod` 3 = 2)%Z
  then if decide (i = 1) then {[ "bad_transition" := IVFlag true; "episode" := IVEpisode (Qc_of_Z c) ]}
       else {[ "episode" := IVEpisode (Qc_of_Z c) ]}
  else ∅.

(** A leading [~] stands for the home directory. *)
Definition toy_expanduser (s : string) : string :=
  if String.prefix "~" s
  then "/home/toy" +:+ String.substring 1 (String.length s - 1) s
  else s.

#[export] Instance collaborators : Collaborators := {|
  TorchGen := Z; NpGen := Z; EnvVec := nat * Z; Agent := Z; Discr := Z;
  manual_seed s := s;
  make_vec_envs a := (num_processes a, 0%Z);
  observation_rank _ := 1;
  action_rank _ := 1;
  envs_reset e := (replicate e.1 7%Z, e);
  envs_step e acts :=
    (((λ x, x + e.2 + 1)%Z <$> acts,
      replicate e.1 1%Qc,
      (λ i, bool_decide ((e.2 + Z.of_nat i) `mod` 3 = 2)%Z) <$> seq 0 e.1,
      toy_info e.2 <$> seq 0 e.1), (e.1, e.2 + 1)%Z);
  envs_eval e := e;
  make_agent a e g := (0%Z, (g + 1)%Z);
  act ag g o h m := ((Qc_of_Z <$> o, (λ x, x + g)%Z <$> o, replicate (length o) (-1)%Qc, (λ x, x + 1)%Z <$> h), (g + 1)%Z);
  get_value ag o h m := (λ x, Qc_of_Z (x + ag)) <$> o;
  optimizer_lr ag := 0%Qc;
  update_linear_schedule ag j n l := ag;
  agent_update ag g b := ((ag + 1, (Qc_of_Z ag, 0%Qc, 1%Qc))%Z, (g + 1)%Z);
  make_discriminator a e g := (0%Z, g);
  discr_update d g b e := ((d + 1)%Z, g);
  predict_reward d o ac γ m := ((λ x, Qc_of_Z (x + d)) <$> o, (d + 1)%Z);
  np_uniform g n := ((λ i, if Z.even (g + Z.of_nat i) then Q2Qc (3 # 4) else Q2Qc (1 # 4)) <$> seq 0 n, (g + Z.of_nat n)%Z);
  expanduser := toy_expanduser;
|}.

Definition args : Args := {|
  seed := 1; algo := a2c; gail := false; gail_epoch := 5;
  num_steps := 2; num_processes := 2; num_env_steps := Qc_of_Z 9;
  num_mini_batch := 32; use_linear_lr_decay := false; lr := 0%Qc;
  flicker := true; use_gae := false; gamma := Q2Qc (99 # 100);
  gae_lambda := Q2Qc (95 # 100); use_proper_time_limits := false;
  recurrent_policy := false; IAM := false; save_interval := 100;
  save_dir := "./trained_models/"; log_interval := 10;
  eval_interval := None; log_dir := "/tmp/gym/" |}.

Definition gail_args : Args := {|
  seed := 1; algo := a2c; gail := true; gail_epoch := 5;
  num_steps := 2; num_processes := 2; num_env_steps := Qc_of_Z 9;
  num_mini_batch := 32; use_linear_lr_decay := true; lr := 0%Qc;
  flicker := false; use_gae := true; gamma := Q2Qc (99 # 100);
  gae_lambda := Q2Qc (95 # 100); use_proper_time_limits := false;
  recurrent_policy := false; IAM := false; save_interval := 100;
  save_dir := "./trained_models/"; log_interval := 10;
  eval_interval := None; log_dir := "/tmp/gym/" |}.

(** The world in which the loop of [args] starts, numpy's generator being
    in state [np0]. *)
Definition start (np0 : Z) : World := {|
  torch := 2%Z;
  numpy := np0;
  envs := (2, 0%Z);
  agent := 0%Z;
  discr := None;
  rollouts := seed_slot0 [7%Z; 7%Z] (RolloutStorage_new 2 2);
  grad_enabled := true;
  episode_rewards := [];
  mean_episode_rewards := [];
  max_episode_rewards := [];
  log := [EvSeedSlot0 [7%Z; 7%Z]; EvReset [7%Z; 7%Z]; EvManualSeed 1];
|}.

(** The same for [gail_args]. *)
Definition gail_start : World := {|
  torch := 2%Z;
  numpy := 0%Z;
  envs := (2, 0%Z);
  agent := 0%Z;
  discr := Some 0%Z;
  rollouts := seed_slot0 [7%Z; 7%Z] (RolloutStorage_new 2 2);
  grad_enabled := true;
  episode_rewards := [];
  mean_episode_rewards := [];
  max_episode_rewards := [];
  log := [EvSeedSlot0 [7%Z; 7%Z]; EvReset [7%Z; 7%Z]; EvManualSeed 1];
|}.

(** A one-lane storage of horizon 2 whose lane ends an episode at slot 1. *)
Definition storage (rew vals : list row) : RolloutStorage := {|
  capacity := 2;
  obs := replicate 3 [0%Z];
  recurrent_hidden_states := replicate 3 [0%Z];
  rewards := rew;
  value_preds := vals;
  returns := replicate 2 [0%Qc];
  action_log_probs := replicate 2 [0%Qc];
  actions := replicate 2 [0%Z];
  masks := [[1%Qc]; [0%Qc]; [1%Qc]];
  bad_masks := replicate 3 [1%Qc];
  step := 2;
|}.

(** The scenario of the spec: T = 5, N = 2, all rewards 1, all masks 1
    except mask[3] = [0, 1]. *)
Definition scenario : RolloutStorage := {|
  capacity := 5;
  obs := replicate 6 [0%Z; 0%Z];
  recurrent_hidden_states := replicate 6 [0%Z; 0%Z];
  rewards := replicate 5 [1%Qc; 1%Qc];
  value_preds := replicate 6 [0%Qc; 0%Qc];
  returns := replicate 5 [0%Qc; 0%Qc];
  action_log_probs := replicate 5 [0%Qc; 0%Qc];
  actions := replicate 5 [0%Z; 0%Z];
  masks := <[3 := [0%Qc; 1%Qc]]> (replicate 6 [1%Qc; 1%Qc]);
  bad_masks := replicate 6 [1%Qc; 1%Qc];
  step := 5;
|}.

End Toy.

(** ** Variations of the toy arguments *)

Module Cases.
Import Toy.

(** [a] with another horizon and another budget of environment steps. *)
Definition with_horizon (T : nat) (budget : Qc) (a : Args) : Args := {|
  seed := seed a; algo := algo a; gail := gail a; gail_epoch := gail_epoch a;
  num_steps := T; num_processes := num_processes a; num_env_steps := budget;
  num_mini_batch := num_mini_batch a;
  use_linear_lr_decay := use_linear_lr_decay a; lr := lr a;
  flicker := flicker a; use_gae := use_gae a; gamma := gamma a;
  gae_lambda := gae_lambda a;
  use_proper_time_limits := use_proper_time_limits a;
  recurrent_policy := recurrent_policy a; IAM := IAM a;
  save_interval := save_interval a; save_dir := save_dir a;
  log_interval := log_interval a; eval_interval := eval_interval a;
  log_dir := log_dir a |}.

(** A horizon of zero steps. *)
Definition zero_step_args : Args := with_horizon 0 (Qc_of_Z 9) args.

(** A budget of three environment steps: less than one cycle of 2 x 2. *)
Definition short_args : Args := with_horizon 2 (Qc_of_Z 3) args.

(** A negative budget of environment steps. *)
Definition negative_budget_args : Args := with_horizon 2 (Qc_of_Z (-7)) args.

(** [args] with a progress line at every iteration that has two finished
    episodes on record. *)
Definition chatty_args : Args := {|
  seed := 1; algo := a2c; gail := false; gail_epoch := 5;
  num_steps := 2; num_processes := 2; num_env_steps := Qc_of_Z 9;
  num_mini_batch := 32; use_linear_lr_decay := false; lr := 0%Qc;
  flicker := true; use_gae := false; gamma := Q2Qc (99 # 100);
  gae_lambda := Q2Qc (95 # 100); use_proper_time_limits := false;
  recurrent_policy := false; IAM := false; save_interval := 100;
  save_dir := "./trained_models/"; log_interval := 1;
  eval_interval := None; log_dir := "/tmp/gym/" |}.

(** [args] with a save interval of zero. *)
Definition zero_interval_args : Args := {|
  seed := 1; algo := a2c; gail := false; gail_epoch := 5;
  num_steps := 2; num_processes := 2; num_env_steps := Qc_of_Z 9;
  num_mini_batch := 32; use_linear_lr_decay := false; lr := 0%Qc;
  flicker := true; use_gae := false; gamma := Q2Qc (99 # 100);
  gae_lambda := Q2Qc (95 # 100); use_proper_time_limits := false;
  recurrent_policy := false; IAM := false; save_interval := 0;
  save_dir := "./trained_models/"; log_interval := 10;
  eval_interval := None; log_dir := "/tmp/gym/" |}.

End Cases.

(** * Proofs *)

Section Proofs.
Context `{Collaborators}.

Lemma wp_ret {A} (a : A) Q E w : Q a w → wp (mret a) Q E w.
Proof. done. Qed.

Lemma wp_bind {A B} (m : M A) (f : A → M B) Q E w :
  wp m (λ a, wp (f a) Q E) E w → wp (m ≫= f) Q E w.
Proof.
  unfold wp, mbind, M_bind. destruct (m w) as [e|[x w']]; done.
Qed.

Lemma wp_mono {A} (m : M A) (Q Q' : A → World → Prop) (E E' : exn → Prop) w :
  wp m Q E w → (∀ x w', Q x w' → Q' x w') → (∀ e, E e → E' e) → wp m Q' E' w.
Proof.
  unfold wp. destruct (m w) as [e|[x w']]; auto.
Qed.

Lemma wp_gets {A} (f : World → A) Q E w : Q (f w) w → wp (gets f) Q E w.
Proof. done. Qed.

Lemma wp_modify f Q E w : Q tt (f w) → wp (modify f) Q E w.
Proof. done. Qed.

Lemma wp_emit ev Q E w : Q tt (with_log (ev :: log w) w) → wp (emit ev) Q E w.
Proof. done. Qed.

Lemma wp_raise {A} e (Q : A → World → Prop) (E : exn → Prop) w :
  E e → wp (raise e) Q E w.
Proof. done. Qed.

Lemma wp_lift {A} (x : exn + A) (Q : A → World → Prop) (E : exn → Prop) w :
  (∀ e, x = inl e → E e) → (∀ v, x = inr v → Q v w) → wp (lift x) Q E w.
Proof. unfold wp, lift. destruct x; auto. Qed.

Lemma wp_when c m Q E w :
  (c = true → wp m Q E w) → (c = false → Q tt w) → wp (when c m) Q E w.
Proof. destruct c; simpl; intros H1 H2; [by apply H1|by apply wp_ret, H2]. Qed.

Lemma wp_item {A} (l : list A) i (Q : A → World → Prop) (E : exn → Prop) w :
  (l !! i = None → E IndexError) → (∀ x, l !! i = Some x → Q x w) →
  wp (item l i) Q E w.
Proof. unfold wp, item. destruct (l !! i); simpl; auto. Qed.

Lemma wp_last_item {A} (l : list A) (Q : A → World → Prop) (E : exn → Prop) w :
  (last l = None → E IndexError) → (∀ x, last l = Some x → Q x w) →
  wp (last_item l) Q E w.
Proof. unfold wp, last_item. destruct (last l); simpl; auto. Qed.

Lemma wp_no_grad {A} (m : M A) Q E w :
  wp m (λ x w', Q x (with_grad (grad_enabled w) w')) E (with_grad false w) →
  wp (no_grad m) Q E w.
Proof.
  unfold no_grad, wp, mbind, M_bind, gets, modify, mret, M_ret.
  destruct (m (with_grad false w)) as [e|[x w']]; done.
Qed.

(** The rule of the [for] loop: [I done] holds once the elements of [done]
    have been processed. *)
Lemma wp_for_each {A} (I : list A → World → Prop) (l : list A)
    (body : A → M unit) E w :
  I [] w →
  (∀ pre x suf w1, l = pre ++ x :: suf → I pre w1 →
     wp (body x) (λ _, I (pre ++ [x])) E w1) →
  wp (for_each l body) (λ _, I l) E w.
Proof.
  intros Hinit Hstep.
  cut (∀ suf pre w1, l = pre ++ suf → I pre w1 →
         wp (for_each suf body) (λ _, I l) E w1).
  { intros Hc. by apply (Hc l [] w). }
  induction suf as [|x suf IH]; intros pre w1 Hl Hpre; simpl.
  - rewrite app_nil_r in Hl. rewrite Hl. by apply wp_ret.
  - apply wp_bind. eapply wp_mono; [by eapply Hstep| |done].
    intros [] w2 Hw2. apply (IH (pre ++ [x])); [|done].
    by rewrite <- app_assoc.
Qed.

Lemma wp_inr {A} (m : M A) Q E w x w' : wp m Q E w → m w = inr (x, w') → Q x w'.
Proof. unfold wp. intros Hwp Heq. by rewrite Heq in Hwp. Qed.

Lemma wp_inl {A} (m : M A) Q E w e : wp m Q E w → m w = inl e → E e.
Proof. unfold wp. intros Hwp Heq. by rewrite Heq in Hwp. Qed.

Lemma bind_inr {A B} (m : M A) (f : A → M B) w y w' :
  (m ≫= f) w = inr (y, w') →
  ∃ x w1, m w = inr (x, w1) ∧ f x w1 = inr (y, w').
Proof.
  unfold mbind, M_bind. destruct (m w) as [e|[x w1]]; [done|]. eauto.
Qed.

Ltac wp_step :=
  lazymatch goal with
  | |- wp (mret _) _ _ _ => apply wp_ret
  | |- wp (mbind _ _) _ _ _ => apply wp_bind
  | |- wp (gets _) _ _ _ => apply wp_gets
  | |- wp (modify _) _ _ _ => apply wp_modify
  | |- wp (emit _) _ _ _ => apply wp_emit
  | |- wp (no_grad _) _ _ _ => apply wp_no_grad
  | |- wp (item _ _) _ _ _ =>
      apply wp_item; [simpl; intros ?; eauto 8; fail | intros ? ?]
  | |- wp (last_item _) _ _ _ =>
      apply wp_last_item; [simpl; intros ?; eauto 8; fail | intros ? ?]
  end.

Ltac wp_steps := repeat (wp_step; simpl).

Lemma events_emit ev (w : World) :
  events (with_log (ev :: log w) w) = events w ++ [ev].
Proof. unfold events. simpl. by rewrite reverse_cons. Qed.

Lemma stats_only_refl w : stats_only w w.
Proof. by repeat split. Qed.

Lemma stats_only_trans w1 w2 w3 :
  stats_only w1 w2 → stats_only w2 w3 → stats_only w1 w3.
Proof.
  unfold stats_only. intros (?&?&?&?&?&?&?&?) (?&?&?&?&?&?&?&?).
  repeat split; congruence.
Qed.

Lemma record_episodes_spec infos w (E : exn → Prop) :
  ((∃ i b, i ∈ infos ∧ i !! "episode" = Some (IVFlag b)) → E TypeError) →
  wp (record_episodes infos) (λ _ w', stats_only w w') E w.
Proof.
  intros HE. unfold record_episodes.
  eapply wp_mono;
    [apply (wp_for_each (λ _ w', stats_only w w'))| |done].
  - apply stats_only_refl.
  - intros pre i suf w1 Hl Hw1.
    destruct (i !! "episode") as [[b|r]|] eqn:Hi; simpl.
    + apply wp_raise, HE. exists i, b. split; [|done].
      rewrite Hl. apply elem_of_app. right. apply list_elem_of_here.
    + apply wp_modify. eapply stats_only_trans; [done|]. by repeat split.
    + by apply wp_ret.
  - done.
Qed.

Lemma collect_step_spec a t w (E : exn → Prop) :
  (¬ slots_exist (S t) (rollouts w) → E IndexError) →
  (¬ env_typed → E TypeError) →
  (capacity (rollouts w) ≤ step (rollouts w) →
     E (PreconditionViolation InsertIntoFullBuffer)) →
  wp (collect_step a t) (λ _ w', collect_step_result a t w w') E w.
Proof.
  intros HI HT HP. unfold collect_step, sample_actions.
  assert (∀ {A} (l : list A), l !! t = None → t < length l → False) as Hnone.
  { intros A l Hl Hlt. apply lookup_lt_is_Some in Hlt as [? ?]. congruence. }
  assert (obs (rollouts w) !! t = None
          ∨ recurrent_hidden_states (rollouts w) !! t = None
          ∨ masks (rollouts w) !! t = None → E IndexError) as HI'.
  { intros Hn. apply HI. intros (?&?&?).
    destruct Hn as [Hn|[Hn|Hn]]; by eapply Hnone. }
  wp_steps.
  destruct (act (agent w) (torch w) x x0 x1) as [[[[v ac] lp] hid] g'] eqn:Hact.
  simpl. wp_steps.
  destruct (envs_step (envs w) ac) as [[[[o1 r] d] i] e'] eqn:Hstep.
  wp_steps.
  set (w1 := with_log _ _).
  assert (Hcont : ∀ o2 w2 (fl : list Event),
    o2 = (if flicker a
          then flicker_obs (np_uniform (numpy w) (length o1)).1 o1 else o1) →
    fl = (if flicker a
          then [EvFlicker (np_uniform (numpy w) (length o1)).1] else []) →
    agent w2 = agent w → discr w2 = discr w →
    grad_enabled w2 = grad_enabled w → rollouts w2 = rollouts w →
    log w2 = reverse fl ++ log w1 →
    wp (record_episodes i ≫= λ _,
          emit (EvInsert o2 hid ac lp v r (done_mask <$> d) (bad_mask <$> i))
          ≫= λ _, gets rollouts ≫= λ b,
            lift (insert o2 hid ac lp v r (done_mask <$> d) (bad_mask <$> i) b)
            ≫= λ b', modify (with_rollouts b'))
       (λ _ w', collect_step_result a t w w') E w2).
  { intros o2 w2 fl Ho2 Hfl Hag Hdi Hgr Hro Hlog.
    wp_step. eapply wp_mono; [apply record_episodes_spec| |done].
    { intros (i0&b&Hin&Hflag). apply HT. intros Htyped.
      apply (Htyped (envs w) ac i0 b); [by rewrite Hstep|done]. }
    intros [] w3 (_&_&_&Hag3&Hdi3&Hro3&Hgr3&Hlog3); simpl.
    wp_steps. apply wp_lift.
    - intros e He. unfold insert in He. case_decide; [|done].
      simplify_eq. apply HP. by rewrite <- Hro, <- Hro3.
    - intros b' Hb'. wp_steps.
      exists x, x0, x1, v, ac, lp, hid, g', o1, r, d, i, e', o2.
      rewrite Hro3, Hro in Hb'.
      split_and!; simpl; try done; try congruence.
      unfold events. simpl. rewrite Hlog3, Hlog. subst w1. simpl.
      rewrite !reverse_cons, reverse_app, reverse_involutive, !reverse_cons.
      rewrite <- !app_assoc. simpl. by subst fl. }
  unfold flicker_step. destruct (flicker a) eqn:Hfl.
  - do 7 (wp_step; simpl). by eapply Hcont.
  - wp_step. by apply (Hcont _ _ []).
Qed.

Lemma insert_inr o h ac lp v r m bm (b b' : RolloutStorage) :
  insert o h ac lp v r m bm b = inr b' →
  step b < capacity b
  ∧ capacity b' = capacity b
  ∧ step b' = S (step b)
  ∧ obs b' = <[S (step b) := o]> (obs b)
  ∧ recurrent_hidden_states b' = <[S (step b) := h]> (recurrent_hidden_states b)
  ∧ masks b' = <[S (step b) := m]> (masks b)
  ∧ bad_masks b' = <[S (step b) := bm]> (bad_masks b)
  ∧ rewards b' = <[step b := r]> (rewards b)
  ∧ actions b' = <[step b := ac]> (actions b)
  ∧ value_preds b' = <[step b := v]> (value_preds b)
  ∧ action_log_probs b' = <[step b := lp]> (action_log_probs b).
Proof.
  unfold insert. case_decide; [done|]. intros [= <-]. simpl.
  split_and!; try done. lia.
Qed.

Lemma stages_app evs1 evs2 : stages (evs1 ++ evs2) = stages evs1 ++ stages evs2.
Proof. apply omap_app. Qed.

Lemma join_replicate_S {A} k (l : list A) :
  mjoin (replicate (S k) l) = mjoin (replicate k l) ++ l.
Proof.
  induction k as [|k IH]; simpl in *.
  - by rewrite app_nil_r.
  - by rewrite <- app_assoc, <- IH.
Qed.

Lemma collect_progress_0 w : collect_progress 0 w w.
Proof.
  split_and!; try done; try lia. exists []. by rewrite app_nil_r.
Qed.

Lemma collect_progress_S a t k w w1 w2 :
  collect_progress k w w1 → collect_step_result a t w1 w2 →
  collect_progress (S k) w w2.
Proof.
  intros ([evs [Hev Hst]]&Hcap&Hstep&Ho&Hh&Hm&Hr&Ha&Ho0&Hgr&Hdi)
    (o&h&m&v&ac&lp&hid&g'&o1&r&d&i&e'&o2&_&_&_&_&_&_&Hev2&Hins&Hag2&Hdi2&Hgr2).
  apply insert_inr in Hins
    as (_&Hcap2&Hstep2&Hobs2&Hhid2&Hm2&_&Hr2&Ha2&_&_).
  split_and!; try congruence.
  - eexists. split; [by rewrite Hev2, Hev, <- app_assoc|].
    rewrite join_replicate_S, !stages_app, Hst. f_equal.
    by destruct (flicker a).
  - lia.
  - by rewrite Hobs2, length_insert.
  - by rewrite Hhid2, length_insert.
  - by rewrite Hm2, length_insert.
  - by rewrite Hr2, length_insert.
  - by rewrite Ha2, length_insert.
  - by rewrite Hobs2, list_lookup_insert_ne.
  - rewrite Hdi2. exact Hdi.
Qed.

Lemma seq_middle n pre (x : nat) suf : seq 0 n = pre ++ x :: suf → x = length pre.
Proof.
  intros Hl.
  assert (seq 0 n !! length pre = Some x) as Hx
    by (rewrite Hl; apply list_lookup_middle; done).
  apply lookup_seq in Hx. lia.
Qed.

Lemma collect_spec a w (E : exn → Prop) :
  (¬ slots_exist (num_steps a) (rollouts w) → E IndexError) →
  (¬ env_typed → E TypeError) →
  (capacity (rollouts w) < step (rollouts w) + num_steps a →
     E (PreconditionViolation InsertIntoFullBuffer)) →
  wp (collect a) (λ _ w', collect_progress (num_steps a) w w') E w.
Proof.
  intros HI HT HP. unfold collect.
  eapply wp_mono;
    [apply (wp_for_each (λ pre w', collect_progress (length pre) w w'))| |done].
  - apply collect_progress_0.
  - intros pre t suf w1 Hl Hw1.
    assert (length pre < num_steps a) as Hlt.
    { apply (f_equal length) in Hl.
      rewrite length_seq, length_app in Hl. simpl in Hl. lia. }
    apply seq_middle in Hl as ->.
    eapply wp_mono; [apply collect_step_spec; [|done|]| |done].
    + intros Hno. apply HI. intros (?&?&?). apply Hno.
      destruct Hw1 as (_&_&_&Ho&Hh&Hm&_). unfold slots_exist.
      rewrite Ho, Hh, Hm. lia.
    + intros Hfull. apply HP.
      destruct Hw1 as (_&Hcap&Hstep&_). lia.
    + intros [] w2 Hw2. simpl. rewrite length_app. simpl.
      replace (length pre + 1) with (S (length pre)) by lia.
      by eapply collect_progress_S.
  - intros [] w'. by rewrite length_seq.
Qed.

Ltac events_done :=
  unfold events; simpl; rewrite ?reverse_cons, <- ?app_assoc; simpl; done.

Lemma bootstrap_value_spec w (E : exn → Prop) :
  (¬ slots_exist 1 (rollouts w) → E IndexError) →
  wp bootstrap_value
    (λ nv w', ∃ o h m,
       last (obs (rollouts w)) = Some o
       ∧ last (recurrent_hidden_states (rollouts w)) = Some h
       ∧ last (masks (rollouts w)) = Some m
       ∧ nv = get_value (agent w) o h m
       ∧ events w' = events w ++ [EvGetValue o h m false nv]
       ∧ rollouts w' = rollouts w
       ∧ agent w' = agent w
       ∧ discr w' = discr w
       ∧ grad_enabled w' = grad_enabled w) E w.
Proof.
  intros HI. unfold bootstrap_value.
  assert (last (obs (rollouts w)) = None
          ∨ last (recurrent_hidden_states (rollouts w)) = None
          ∨ last (masks (rollouts w)) = None → E IndexError) as HI'.
  { intros Hn. apply HI. intros (?&?&?).
    destruct Hn as [Hn|[Hn|Hn]]; apply last_None in Hn;
      rewrite Hn in *; simpl in *; lia. }
  wp_steps.
  eexists _, _, _. split_and!; try done. events_done.
Qed.

Lemma estimate_spec a nv w (E : exn → Prop) :
  wp (estimate a nv)
    (λ _ w',
       events w' = events w
         ++ [EvComputeReturns nv (use_gae a) (gamma a) (gae_lambda a)
               (use_proper_time_limits a)]
       ∧ rollouts w' = compute_returns nv (use_gae a) (gamma a)
                         (gae_lambda a) (use_proper_time_limits a) (rollouts w)
       ∧ agent w' = agent w
       ∧ discr w' = discr w
       ∧ grad_enabled w' = grad_enabled w) E w.
Proof.
  unfold estimate. wp_steps. split_and!; try done. events_done.
Qed.

Lemma update_step_spec a w (E : exn → Prop) :
  (step (rollouts w) < capacity (rollouts w) →
     E (PreconditionViolation UpdateOnPartialBuffer)) →
  (misaligned a → E (PreconditionViolation MiniBatchMisaligned)) →
  wp (update_step a)
    (λ _ w', ∃ l1 l2 l3,
       events w' = events w ++ [EvUpdate l1 l2 l3]
       ∧ capacity (rollouts w) ≤ step (rollouts w)
       ∧ rollouts w' = rollouts w
       ∧ discr w' = discr w
       ∧ grad_enabled w' = grad_enabled w) E w.
Proof.
  intros HP HM. unfold update_step. wp_steps. apply wp_lift.
  - intros e He. unfold update in He.
    case_decide; [simplify_eq; auto|].
    case_match eqn:Hmis; simplify_eq. apply HM.
    apply andb_prop in Hmis as [[Hppo Hrec]%andb_prop Hpart].
    split_and!; [by apply bool_decide_eq_true_1 in Hppo|done|].
    apply negb_true_iff in Hpart. by apply bool_decide_eq_false_1 in Hpart.
  - intros [[ag' [[l1 l2] l3]] g'] Hup. wp_steps.
    exists l1, l2, l3. split_and!; try done; [events_done|].
    unfold update in Hup. case_decide; [done|lia].
Qed.

Lemma reset_step_spec w (E : exn → Prop) :
  wp reset_step
    (λ _ w',
       events w' = events w ++ [EvAfterUpdate]
       ∧ rollouts w' = after_update (rollouts w)
       ∧ agent w' = agent w
       ∧ discr w' = discr w
       ∧ grad_enabled w' = grad_enabled w) E w.
Proof.
  unfold reset_step. wp_steps. split_and!; try done. events_done.
Qed.

Lemma quiet_refl w : quiet w w.
Proof. split_and!; try done. exists []. by rewrite app_nil_r. Qed.

Lemma quiet_trans w1 w2 w3 : quiet w1 w2 → quiet w2 w3 → quiet w1 w3.
Proof.
  intros ([e1 [He1 Hs1]]&?&?&Hd1) ([e2 [He2 Hs2]]&?&?&Hd2).
  split_and!; try congruence; [|by auto].
  exists (e1 ++ e2). split; [by rewrite He2, He1, app_assoc|].
  by rewrite stages_app, Hs1, Hs2.
Qed.

Lemma quiet_emit ev (w : World) :
  stage_of ev = None → quiet w (with_log (ev :: log w) w).
Proof.
  intros Hev. split_and!; try done. exists [ev].
  split; [apply events_emit|]. unfold stages. simpl. by rewrite Hev.
Qed.

Lemma lr_decay_spec a nu j w (E : exn → Prop) :
  wp (lr_decay a nu j) (λ _ w', quiet w w') E w.
Proof.
  unfold lr_decay. wp_steps. split_and!; try done.
  exists [EvLrDecay j]. split; [events_done|done].
Qed.

Lemma save_checkpoint_spec a nu j w (E : exn → Prop) :
  (save_interval a = 0%Z → E ZeroDivisionError) →
  wp (save_checkpoint a nu j) (λ _ w', quiet w w') E w.
Proof.
  intros HZ. unfold save_checkpoint. wp_step. apply wp_lift.
  - intros e He. unfold modulo in He.
    case_decide; simplify_eq. by apply HZ.
  - intros r _. apply wp_when; intros _.
    + apply wp_emit. by apply quiet_emit.
    + apply quiet_refl.
Qed.

Lemma print_progress_spec a j w (E : exn → Prop) :
  (log_interval a = 0%Z → E ZeroDivisionError) →
  wp (print_progress a j) (λ _ w', quiet w w') E w.
Proof.
  intros HZ. unfold print_progress. wp_step. apply wp_lift.
  - intros e He. unfold modulo in He.
    case_decide; simplify_eq. by apply HZ.
  - intros r _. wp_steps. apply wp_when; intros _.
    + apply wp_emit. by apply quiet_emit.
    + apply quiet_refl.
Qed.

Lemma run_evaluation_spec a j w (E : exn → Prop) :
  (eval_interval a = Some 0%Z → E ZeroDivisionError) →
  wp (run_evaluation a j) (λ _ w', quiet w w') E w.
Proof.
  intros HZ. unfold run_evaluation.
  destruct (eval_interval a) as [ei|] eqn:Hei; [|apply wp_ret, quiet_refl].
  wp_steps. case_decide; [|apply wp_ret, quiet_refl].
  wp_step. apply wp_lift.
  - intros e He. unfold modulo in He.
    case_decide; simplify_eq. by apply HZ.
  - intros r _. apply wp_when; intros _.
    + apply wp_emit. by apply quiet_emit.
    + apply quiet_refl.
Qed.

Lemma record_means_spec j w (E : exn → Prop) :
  wp (record_means j) (λ _ w', quiet w w') E w.
Proof.
  unfold record_means. wp_steps. apply wp_when; intros _.
  - apply wp_modify. split_and!; try done. exists []. by rewrite app_nil_r.
  - apply quiet_refl.
Qed.

Lemma wp_seq {A B} (m : M A) (f : A → M B) (R1 : World → World → Prop)
    (R2 : World → World → Prop) (R : World → World → Prop) E w :
  wp m (λ _ w1, R1 w w1) E w →
  (∀ x w1, R1 w w1 → wp (f x) (λ _ w2, R2 w1 w2) E w1) →
  (∀ w1 w2, R1 w w1 → R2 w1 w2 → R w w2) →
  wp (m ≫= f) (λ _ w', R w w') E w.
Proof.
  intros H1 H2 HR. apply wp_bind. eapply wp_mono; [exact H1| |done].
  intros x w1 Hw1. simpl in Hw1.
  eapply wp_mono; [apply H2, Hw1| |done].
  intros y w2 Hw2. simpl in Hw2. by eapply HR.
Qed.

Lemma bookkeeping_spec a nu j w (E : exn → Prop) :
  (save_interval a = 0%Z ∨ log_interval a = 0%Z
   ∨ eval_interval a = Some 0%Z → E ZeroDivisionError) →
  wp (bookkeeping a nu j) (λ _ w', quiet w w') E w.
Proof.
  intros HZ. unfold bookkeeping.
  eapply (wp_seq _ _ quiet quiet); [apply save_checkpoint_spec; by auto| |apply quiet_trans].
  intros _ w1 _.
  eapply (wp_seq _ _ quiet quiet); [apply print_progress_spec; by auto| |apply quiet_trans].
  intros _ w2 _.
  eapply (wp_seq _ _ quiet quiet); [apply run_evaluation_spec; by auto| |apply quiet_trans].
  intros _ w3 _. apply record_means_spec.
Qed.

Lemma same_but_rewards_refl b : same_but_rewards b b.
Proof. by split_and!. Qed.

Lemma same_but_rewards_set t r b b' :
  same_but_rewards b b' → same_but_rewards b (set_reward t r b').
Proof.
  intros (?&?&?&?&?&?&?&?&?). split_and!; simpl; try done.
  by rewrite length_insert.
Qed.

Lemma predict_step_spec a t w (E : exn → Prop) :
  (¬ reward_slots_exist (S t) (rollouts w) → E IndexError) →
  (discr w = None → E UnboundLocalError) →
  wp (predict_step a t)
    (λ _ w', ∃ d o ac m,
       obs (rollouts w) !! t = Some o
       ∧ actions (rollouts w) !! t = Some ac
       ∧ masks (rollouts w) !! t = Some m
       ∧ t < length (rewards (rollouts w))
       ∧ events w' = events w
           ++ [EvPredictReward t o ac (gamma a) m
                 (predict_reward d o ac (gamma a) m).1]
       ∧ rollouts w' = set_reward t (predict_reward d o ac (gamma a) m).1
                         (rollouts w)
       ∧ grad_enabled w' = grad_enabled w
       ∧ is_Some (discr w')) E w.
Proof.
  intros HI HU. unfold predict_step, get_discr.
  assert (∀ {A} (l : list A), l !! t = None → t < length l → False) as Hnone.
  { intros A l Hl Hlt. apply lookup_lt_is_Some in Hlt as [? ?]. congruence. }
  assert (obs (rollouts w) !! t = None
          ∨ actions (rollouts w) !! t = None
          ∨ masks (rollouts w) !! t = None → E IndexError) as HI'.
  { intros Hn. apply HI. intros (?&?&?&?).
    destruct Hn as [Hn|[Hn|Hn]]; by eapply Hnone. }
  wp_steps.
  destruct (discr w) as [d|]; [|by apply wp_raise, HU].
  wp_steps. case_decide as Hlt.
  - wp_step. exists d, x, x0, x1. split_and!; try done. events_done.
  - apply wp_raise, HI. intros (?&?&?&?). lia.
Qed.

Lemma predict_loop_spec a w (E : exn → Prop) :
  (¬ reward_slots_exist (num_steps a) (rollouts w) → E IndexError) →
  (discr w = None → E UnboundLocalError) →
  wp (for_each (seq 0 (num_steps a)) (predict_step a))
    (λ _ w', predict_progress a (num_steps a) w w') E w.
Proof.
  intros HI HU.
  eapply wp_mono;
    [apply (wp_for_each (λ pre w', predict_progress a (length pre) w w'))| |done].
  - split_and!; [apply same_but_rewards_refl|done| |done].
    exists []. rewrite app_nil_r. split; [done|]. split; [done|].
    intros t Ht. simpl in Ht. lia.
  - intros pre t suf w1 Hl (Hsame&Hgr&(prs&Hev&Hlen&Hprs)&Hdi).
    assert (length pre < num_steps a) as Hlt.
    { apply (f_equal length) in Hl.
      rewrite length_seq, length_app in Hl. simpl in Hl. lia. }
    apply seq_middle in Hl as ->.
    pose proof Hsame as (_&_&Hobs&_&Hmasks&_&Hacts&_&Hlr).
    eapply wp_mono; [apply predict_step_spec| |done].
    { intros Hno. apply HI. intros (?&?&?&?). apply Hno.
      unfold reward_slots_exist. rewrite Hobs, Hmasks, Hacts, Hlr. lia. }
    { intros Hnone. destruct (discr w) as [d0|] eqn:Hd; [|by apply HU].
      destruct Hdi as [d1 Hd1]; [done|]. congruence. }
    intros [] w2 (d&o&ac&m&Ho&Hac&Hm&Hlt'&Hev2&Hro2&Hgr2&Hdi2). simpl.
    split_and!.
    + rewrite Hro2. by apply same_but_rewards_set.
    + congruence.
    + eexists. split; [by rewrite Hev2, Hev, <- app_assoc|].
      split; [rewrite !length_app; simpl; lia|].
      intros t Ht. rewrite length_app in Ht. simpl in Ht.
      destruct (decide (t = length pre)) as [->|Hne].
      * exists d, o, ac, m. rewrite <- Hobs, <- Hacts, <- Hmasks.
        split_and!; try done.
        -- rewrite lookup_app_r by lia. by rewrite Hlen, Nat.sub_diag.
        -- rewrite Hro2. simpl. by apply list_lookup_insert_eq.
      * destruct (Hprs t) as (d'&o'&ac'&m'&?&?&?&Hp&Hr); [lia|].
        exists d', o', ac', m'. split_and!; try done.
        -- rewrite lookup_app_l by lia. done.
        -- rewrite Hro2. simpl. by rewrite list_lookup_insert_ne.
    + done.
  - intros [] w'. by rewrite length_seq.
Qed.

Lemma discr_update_step_spec w (E : exn → Prop) :
  (discr w = None → E UnboundLocalError) →
  wp discr_update_step (λ _ w', quiet w w') E w.
Proof.
  intros HU. unfold discr_update_step, get_discr. wp_steps.
  destruct (discr w) as [d|]; [|by apply wp_raise, HU].
  wp_steps. split_and!; try done.
  exists [EvDiscrUpdate]. split; [events_done|done].
Qed.

Lemma quiet_loop_spec {A} (l : list A) (body : A → M unit) w (E : exn → Prop) :
  (∀ x w1, quiet w w1 → wp (body x) (λ _ w', quiet w1 w') E w1) →
  wp (for_each l body) (λ _ w', quiet w w') E w.
Proof.
  intros Hbody.
  eapply wp_mono; [apply (wp_for_each (λ _ w', quiet w w'))| |done].
  - apply quiet_refl.
  - intros pre x suf w1 _ Hw1. eapply wp_mono; [by apply Hbody| |done].
    intros [] w2 Hw2. by eapply quiet_trans.
  - done.
Qed.

Lemma quiet_unbound w w1 (E : exn → Prop) :
  quiet w w1 → (discr w = None → E UnboundLocalError) →
  discr w1 = None → E UnboundLocalError.
Proof.
  intros (_&_&_&Hdi) HU Hnone.
  destruct (discr w) as [d0|] eqn:Hd; [|by apply HU].
  destruct Hdi as [d1 Hd1]; [done|]. congruence.
Qed.

Lemma gail_phase_spec a j w (E : exn → Prop) :
  (¬ reward_slots_exist (num_steps a) (rollouts w) → E IndexError) →
  (discr w = None → E UnboundLocalError) →
  wp (gail_phase a j) (λ _ w', gail_result a w w') E w.
Proof.
  intros HI HU. unfold gail_phase.
  apply wp_bind.
  eapply (wp_mono _ (λ _ w1, quiet w w1)); [| |done].
  { apply wp_when; intros _; [|apply quiet_refl].
    wp_steps. split_and!; try done.
    exists [EvEnvEval]. split; [events_done|done]. }
  intros [] w1 Hq1. apply wp_bind.
  eapply wp_mono; [apply quiet_loop_spec| |done].
  { intros _ w' Hq'. apply discr_update_step_spec.
    eapply quiet_unbound; [exact (quiet_trans _ _ _ Hq1 Hq')|done]. }
  intros [] w2 Hq2.
  pose proof (quiet_trans _ _ _ Hq1 Hq2) as Hq.
  pose proof Hq as ([pre [Hpre Hst]]&Hro&Hgr&Hdi).
  eapply wp_mono; [apply predict_loop_spec| |done].
  { by rewrite Hro. }
  { by eapply quiet_unbound. }
  intros [] w3 (Hsame&Hgr3&(prs&Hev&Hprs)&Hdi3).
  split_and!.
  - by rewrite <- Hro.
  - congruence.
  - exists pre, prs. split_and!; try done.
    + by rewrite Hev, Hpre, <- app_assoc.
    + by rewrite <- Hro.
  - auto.
Qed.

Lemma quiet_collect_progress k w wl w' :
  quiet w wl → collect_progress k wl w' → collect_progress k w w'.
Proof.
  intros ([e1 [He1 Hs1]]&Hro&Hgr&Hd1) ([e2 [He2 Hs2]]&?&?&?&?&?&?&?&?&?&Hd2).
  rewrite Hro in *. split_and!; try congruence; [|by auto].
  exists (e1 ++ e2). split; [by rewrite He2, He1, app_assoc|].
  by rewrite stages_app, Hs1.
Qed.

Lemma collection_phase_spec a nu j w (E : exn → Prop) :
  (¬ slots_exist (num_steps a) (rollouts w) → E IndexError) →
  (¬ env_typed → E TypeError) →
  (capacity (rollouts w) < step (rollouts w) + num_steps a →
     E (PreconditionViolation InsertIntoFullBuffer)) →
  wp (collection_phase a nu j)
    (λ _ w', collect_progress (num_steps a) w w') E w.
Proof.
  intros HI HT HP. unfold collection_phase.
  apply wp_bind.
  eapply (wp_mono _ (λ _ w1, quiet w w1)); [| |done].
  { apply wp_when; intros _; [apply lr_decay_spec|apply quiet_refl]. }
  intros [] w1 Hq. pose proof Hq as (_&Hro&_).
  eapply wp_mono;
    [apply collect_spec; [by rewrite Hro|done|by rewrite Hro]| |done].
  intros [] w2 Hw2. by eapply quiet_collect_progress.
Qed.

Lemma omap_none {A B} (f : A → option B) (l : list A) :
  (∀ i x, l !! i = Some x → f x = None) → omap f l = [].
Proof.
  induction l as [|x l IH]; intros Hl; [done|]. simpl.
  rewrite (Hl 0 x) by done. apply IH. intros i y Hy. by apply (Hl (S i)).
Qed.

Lemma predicted_stages a k b b' prs : predicted a k b b' prs → stages prs = [].
Proof.
  intros [Hlen Hprs]. apply omap_none. intros i ev Hev.
  destruct (Hprs i) as (d&o&ac&m&_&_&_&Hp&_).
  { apply lookup_lt_Some in Hev. lia. }
  rewrite Hev in Hp. by simplify_eq.
Qed.

Lemma estimation_phase_spec a j w (E : exn → Prop) :
  (¬ slots_exist 1 (rollouts w) → E IndexError) →
  (gail a = true → ¬ reward_slots_exist (num_steps a) (rollouts w) →
     E IndexError) →
  (gail a = true → discr w = None → E UnboundLocalError) →
  (misaligned a → E (PreconditionViolation MiniBatchMisaligned)) →
  (step (rollouts w) < capacity (rollouts w) →
     E (PreconditionViolation UpdateOnPartialBuffer)) →
  wp (estimation_phase a j) (λ _ w', estimation_result a w w') E w.
Proof.
  intros HI HIg HU HM HP. unfold estimation_phase.
  apply wp_bind. eapply wp_mono; [by apply bootstrap_value_spec| |done].
  intros nv w1 (o&h&m&Ho&Hh&Hm&Hnv&Hev1&Hro1&Hag1&Hdi1&Hgr1).
  apply wp_bind.
  eapply (wp_mono _ (λ _ w2,
    grad_enabled w2 = grad_enabled w1
    ∧ same_but_rewards (rollouts w1) (rollouts w2)
    ∧ (∃ mid, events w2 = events w1 ++ mid ∧ stages mid = []
        ∧ if gail a
          then ∃ pre prs, mid = pre ++ prs ∧ stages pre = []
                 ∧ predicted a (num_steps a) (rollouts w1) (rollouts w2) prs
          else mid = [] ∧ rollouts w2 = rollouts w1)
    ∧ (is_Some (discr w1) → is_Some (discr w2)))); [| |done].
  { destruct (gail a); simpl.
    - eapply wp_mono; [apply gail_phase_spec| |done].
      { rewrite Hro1. by apply HIg. }
      { rewrite Hdi1. by apply HU. }
      intros [] w2 (Hsame&Hgr&(pre&prs&Hev&Hst&Hprs)&Hdi).
      split_and!; try done. exists (pre ++ prs). split_and!; try done.
      + rewrite stages_app, Hst. by erewrite predicted_stages.
      + by exists pre, prs.
    - apply wp_ret. split_and!; [done|apply same_but_rewards_refl| |done].
      exists []. by rewrite app_nil_r. }
  intros [] w2 (Hgr2&Hsame&(mid&Hev2&Hst&Hgail)&Hdi2).
  apply wp_bind. eapply wp_mono; [apply estimate_spec| |done].
  intros [] w3 (Hev3&Hro3&_&Hdi3&Hgr3).
  pose proof Hsame as (Hcap&Hstep&_).
  eapply wp_mono; [apply update_step_spec; [|done]| |done].
  { rewrite Hro3. simpl. rewrite Hcap, Hstep, Hro1. exact HP. }
  intros [] w4 (l1&l2&l3&Hev4&Hle&Hro4&Hdi4&Hgr4).
  exists o, h, m, nv, mid, (rollouts w2), l1, l2, l3.
  rewrite Hro1 in *.
  split_and!; try done; try congruence.
  - rewrite Hev4, Hev3, Hev2, Hev1, <- !app_assoc. done.
  - rewrite Hro3 in Hle. simpl in Hle. lia.
  - rewrite Hdi4, Hdi3. rewrite Hdi1 in Hdi2. exact Hdi2.
Qed.

Lemma length_carry {A} T (l : list A) : length (carry T l) = length l.
Proof. unfold carry. destruct (l !! T); [apply length_insert|done]. Qed.

Lemma iteration_summary_intro a w w1 w2 w3 w' :
  collect_progress (num_steps a) w w1 →
  estimation_result a w1 w2 →
  events w3 = events w2 ++ [EvAfterUpdate] →
  rollouts w3 = after_update (rollouts w2) →
  grad_enabled w3 = grad_enabled w2 →
  discr w3 = discr w2 →
  quiet w3 w' →
  iteration_summary a w w'.
Proof.
  intros ([e1 [He1 Hs1]]&Hcap1&Hstep1&Ho1&Hh1&Hm1&Hr1&Ha1&_&Hgr1&Hd1)
    (o&h&m&nv&mid&bg&l1&l2&l3&_&_&_&_&He2&Hs2&_&Hsame&Hro2&_&Hgr2&Hd2)
    He3 Hro3 Hgr3 Hd3 ([e4 [He4 Hs4]]&Hro4&Hgr4&Hd4).
  destruct Hsame as (Hc&Hst&Hob&Hhi&Hma&_&Hac&_&Hre).
  unfold iteration_summary.
  rewrite Hro4, Hro3, Hro2. simpl. rewrite !length_carry.
  split_and!; try congruence.
  - eexists. split.
    + rewrite He4, He3, He2, He1, <- !app_assoc. done.
    + rewrite !stages_app, Hs1, Hs2, Hs4. done.
  - intros Hd. apply Hd4. rewrite Hd3. by apply Hd2, Hd1.
Qed.

Lemma storage_ready_slots T b : storage_ready T b → slots_exist T b.
Proof. intros ((?&?&?)&_). unfold slots_exist. lia. Qed.

Lemma storage_ready_last T b : storage_ready T b → slots_exist 1 b.
Proof. intros ((?&?&?)&_). unfold slots_exist. lia. Qed.

Lemma train_iteration_spec a nu j w (E : exn → Prop) :
  (¬ storage_ready (num_steps a) (rollouts w) → E IndexError) →
  (¬ env_typed → E TypeError) →
  (gail a = true → discr w = None → E UnboundLocalError) →
  (save_interval a = 0%Z ∨ log_interval a = 0%Z
   ∨ eval_interval a = Some 0%Z → E ZeroDivisionError) →
  (misaligned a → E (PreconditionViolation MiniBatchMisaligned)) →
  (capacity (rollouts w) ≠ step (rollouts w) + num_steps a →
     E (PreconditionViolation InsertIntoFullBuffer)
     ∧ E (PreconditionViolation UpdateOnPartialBuffer)) →
  wp (train_iteration a nu j) (λ _ w', iteration_summary a w w') E w.
Proof.
  intros HI HT HU HZ HM HP.
  unfold train_iteration.
  apply wp_bind.
  eapply wp_mono;
    [apply collection_phase_spec;
       [|done|intros Hlt; apply HP; lia]| |done].
  { intros Hno. apply HI. intros Hr. by apply Hno, storage_ready_slots. }
  intros [] w1 Hw1.
  pose proof Hw1 as (_&Hcap1&Hstep1&Ho1&Hh1&Hm1&Hr1&Ha1&_&_&Hd1).
  assert (storage_ready (num_steps a) (rollouts w) →
          storage_ready (num_steps a) (rollouts w1)) as Hready.
  { unfold storage_ready, slots_exist, reward_slots_exist.
    rewrite Ho1, Hh1, Hm1, Hr1, Ha1. done. }
  apply wp_bind.
  eapply wp_mono;
    [apply estimation_phase_spec;
       [| | |done|intros Hlt; apply HP; lia]| |done].
  { intros Hno. apply HI. intros Hr. apply Hno.
    by eapply storage_ready_last, Hready. }
  { intros _ Hno. apply HI. intros Hr. apply Hno.
    by destruct (Hready Hr) as [_ ?]. }
  { intros Hg Hnone. apply HU; [done|].
    destruct (discr w) as [d|]; [|done].
    destruct Hd1 as [d1 Hd1]; [done|]. congruence. }
  intros [] w2 Hw2. apply wp_bind.
  eapply wp_mono; [apply reset_step_spec| |done].
  intros [] w3 (Hev3&Hro3&_&Hd3&Hgr3).
  eapply wp_mono; [apply bookkeeping_spec; exact HZ| |done].
  intros [] w4 Hw4. by eapply iteration_summary_intro.
Qed.

Lemma cycles_S k (l : list Stage) :
  mjoin (replicate (S k) l) = mjoin (replicate k l) ++ l.
Proof. apply join_replicate_S. Qed.

Lemma training_progress_0 a w :
  step (rollouts w) = 0 → training_progress a 0 w w.
Proof.
  intros Hs. split_and!; try done. exists []. by rewrite app_nil_r.
Qed.

Lemma training_progress_S a k w w1 w2 :
  training_progress a k w w1 → iteration_summary a w1 w2 →
  training_progress a (S k) w w2.
Proof.
  intros ([e1 [He1 Hs1]]&?&?&?&?&?&?&?&?&Hd1)
    ([e2 [He2 Hs2]]&?&?&?&?&?&?&?&?&Hd2).
  split_and!; try congruence; [|by auto].
  exists (e1 ++ e2). split; [by rewrite He2, He1, app_assoc|].
  by rewrite stages_app, Hs1, Hs2, join_replicate_S.
Qed.

Lemma training_loop_spec a nu (l : list nat) w (E : exn → Prop) :
  storage_ready (num_steps a) (rollouts w) →
  capacity (rollouts w) = num_steps a → step (rollouts w) = 0 →
  (gail a = true → is_Some (discr w)) →
  (¬ env_typed → E TypeError) →
  (save_interval a = 0%Z ∨ log_interval a = 0%Z
   ∨ eval_interval a = Some 0%Z → E ZeroDivisionError) →
  (misaligned a → E (PreconditionViolation MiniBatchMisaligned)) →
  wp (for_each l (train_iteration a nu))
    (λ _ w', training_progress a (length l) w w') E w.
Proof.
  intros Hready Hcap Hstep Hdiscr HT HZ HM.
  eapply wp_mono;
    [apply (wp_for_each (λ pre w', training_progress a (length pre) w w'))| |done].
  - by apply training_progress_0.
  - intros pre j suf w1 _ Hw1.
    pose proof Hw1 as (_&Hc1&Hs1&Ho1&Hh1&Hm1&Hr1&Ha1&_&Hd1).
    eapply wp_mono; [apply train_iteration_spec; [| | | | |]| |done];
      try done.
    + intros Hno. exfalso. apply Hno.
      unfold storage_ready, slots_exist, reward_slots_exist in *.
      rewrite Ho1, Hh1, Hm1, Hr1, Ha1. done.
    + intros Hg Hnone. exfalso.
      destruct (Hd1 (Hdiscr Hg)) as [d Hd]. congruence.
    + intros Hne. lia.
    + intros [] w2 Hw2. simpl. rewrite length_app. simpl.
      replace (length pre + 1) with (S (length pre)) by lia.
      by eapply training_progress_S.
  - done.
Qed.

Lemma setup_inr a np0 w0 :
  setup a np0 = inr w0 →
  events w0 = [EvManualSeed (seed a);
               EvReset (envs_reset (make_vec_envs a)).1;
               EvSeedSlot0 (envs_reset (make_vec_envs a)).1]
  ∧ rollouts w0 = seed_slot0 (envs_reset (make_vec_envs a)).1
                    (RolloutStorage_new (num_steps a) (num_processes a))
  ∧ grad_enabled w0 = true.
Proof.
  unfold setup. case_match; [done|]. case_match; [done|]. by intros [= <-].
Qed.

Lemma setup_wf a np0 w0 :
  setup a np0 = inr w0 →
  wf_storage (num_steps a) (rollouts w0) ∧ step (rollouts w0) = 0.
Proof.
  intros (_&->&_)%setup_inr. unfold wf_storage. simpl.
  rewrite ?length_insert, !length_replicate. done.
Qed.

Lemma setup_discr a np0 w0 :
  setup a np0 = inr w0 → gail a = true → is_Some (discr w0).
Proof.
  unfold setup. case_match; [done|]. case_match; [done|].
  intros [= <-] Hg. simpl. rewrite Hg. by eexists.
Qed.

Lemma setup_statistics a np0 w0 :
  setup a np0 = inr w0 →
  episode_rewards w0 = [] ∧ mean_episode_rewards w0 = []
  ∧ max_episode_rewards w0 = [].
Proof.
  unfold setup. case_match; [done|]. case_match; [done|]. by intros [= <-].
Qed.

Lemma setup_inl a np0 e :
  setup a np0 = inl e →
  gail a = true
  ∧ (e = AssertionError ∧ observation_rank (make_vec_envs a) ≠ 1
     ∨ e = IndexError ∧ action_rank (make_vec_envs a) = 0).
Proof.
  unfold setup. case_match eqn:Hc.
  - intros [= <-]. apply andb_prop in Hc as [Hg Hr]. split; [done|]. left.
    apply negb_true_iff in Hr. by apply bool_decide_eq_false_1 in Hr.
  - case_match eqn:Hc'; [|done]. intros [= <-].
    apply andb_prop in Hc' as [Hg Hr]. split; [done|]. right.
    by apply bool_decide_eq_true_1 in Hr.
Qed.

Lemma setup_benign a np0 e : setup a np0 = inl e → benign e.
Proof. intros (_&[[-> _]|[-> _]])%setup_inl; by split. Qed.

Lemma wf_storage_ready T b : wf_storage T b → storage_ready T b.
Proof.
  intros (?&?&?&?&?&?).
  unfold storage_ready, slots_exist, reward_slots_exist. lia.
Qed.

Lemma num_updates_inl a e :
  num_updates a = inl e →
  e = ZeroDivisionError ∧ (num_steps a = 0 ∨ num_processes a = 0).
Proof.
  unfold num_updates, floordiv. repeat case_decide; intros; simplify_eq;
    (split; [done|lia]).
Qed.

Lemma training_spec a w (E : exn → Prop) :
  storage_ready (num_steps a) (rollouts w) →
  capacity (rollouts w) = num_steps a → step (rollouts w) = 0 →
  (gail a = true → is_Some (discr w)) →
  (¬ env_typed → E TypeError) →
  (num_steps a = 0 ∨ num_processes a = 0 ∨ save_interval a = 0%Z
   ∨ log_interval a = 0%Z ∨ eval_interval a = Some 0%Z →
     E ZeroDivisionError) →
  (misaligned a → E (PreconditionViolation MiniBatchMisaligned)) →
  wp (training a)
    (λ _ w', ∃ nu evs,
       num_updates a = inr nu
       ∧ events w' = events w ++ evs
       ∧ stages evs
         = mjoin (replicate (Z.to_nat nu) (cycle_stages (num_steps a))))
    E w.
Proof.
  intros Hready Hcap Hstep Hdiscr HT HZ HM.
  unfold training. apply wp_bind, wp_lift.
  - intros e (->&Hz)%num_updates_inl. apply HZ. tauto.
  - intros nu Hnu. apply wp_bind.
    eapply wp_mono; [apply training_loop_spec; try done| |done].
    { intros Hz. apply HZ. tauto. }
    intros [] w1 ([evs [Hev Hst]]&_). unfold finalize. wp_steps.
    exists nu, (evs ++ [EvDump (log_mean_file a) (mean_episode_rewards w1)]).
    split_and!; [done| |].
    + unfold events in *. simpl. by rewrite reverse_cons, Hev, app_assoc.
    + rewrite stages_app, Hst. unfold range. rewrite length_seq.
      by rewrite app_nil_r.
Qed.

Lemma setup_training a np0 w0 (E : exn → Prop) :
  setup a np0 = inr w0 →
  (¬ env_typed → E TypeError) →
  (num_steps a = 0 ∨ num_processes a = 0 ∨ save_interval a = 0%Z
   ∨ log_interval a = 0%Z ∨ eval_interval a = Some 0%Z →
     E ZeroDivisionError) →
  (misaligned a → E (PreconditionViolation MiniBatchMisaligned)) →
  wp (training a)
    (λ _ w', ∃ nu evs,
       num_updates a = inr nu
       ∧ events w' = events w0 ++ evs
       ∧ stages evs
         = mjoin (replicate (Z.to_nat nu) (cycle_stages (num_steps a))))
    E w0.
Proof.
  intros Hsetup HT HZ HM.
  pose proof (setup_wf _ _ _ Hsetup) as [Hwf Hstep].
  apply training_spec; try done.
  - by apply wf_storage_ready.
  - by destruct Hwf.
  - by eapply setup_discr.
Qed.

Lemma main_stages a np0 w' :
  main a np0 = inr w' →
  ∃ nu, num_updates a = inr nu
    ∧ stages (events w')
      = SSeed :: mjoin (replicate (Z.to_nat nu) (cycle_stages (num_steps a))).
Proof.
  unfold main. destruct (setup a np0) as [e|w0] eqn:Hsetup; [done|].
  destruct (training a w0) as [e|[[] w1]] eqn:Hrun; [done|]. intros [= <-].
  assert (wp (training a)
            (λ _ w', ∃ nu evs,
               num_updates a = inr nu
               ∧ events w' = events w0 ++ evs
               ∧ stages evs
                 = mjoin (replicate (Z.to_nat nu) (cycle_stages (num_steps a))))
            (λ _, True) w0) as Hwp by (by eapply setup_training).
  destruct (wp_inr _ _ _ _ _ _ Hwp Hrun) as (nu&evs&Hnu&Hev&Hst).
  exists nu. split; [done|].
  apply setup_inr in Hsetup as (Hev0&_). by rewrite Hev, Hev0, stages_app, Hst.
Qed.

Lemma main_benign a np0 e : main a np0 = inl e → benign e.
Proof.
  unfold main. destruct (setup a np0) as [e0|w0] eqn:Hsetup.
  - intros [= <-]. by eapply setup_benign.
  - destruct (training a w0) as [e1|[[] w1]] eqn:Hrun; [|done]. intros [= <-].
    assert (wp (training a)
              (λ _ w', ∃ nu evs,
                 num_updates a = inr nu
                 ∧ events w' = events w0 ++ evs
                 ∧ stages evs
                   = mjoin (replicate (Z.to_nat nu)
                              (cycle_stages (num_steps a))))
              benign w0) as Hwp
      by (eapply setup_training; [done|by split..]).
    exact (wp_inl _ _ _ _ _ Hwp Hrun).
Qed.

Lemma at_iteration_wf a np0 nu j w :
  at_iteration a np0 nu j w →
  wf_storage (num_steps a) (rollouts w)
  ∧ step (rollouts w) = 0
  ∧ grad_enabled w = true.
Proof.
  intros (w0&Hsetup&_&_&Hrun).
  pose proof (setup_wf _ _ _ Hsetup) as [Hwf Hstep].
  pose proof Hwf as (Hcap&?&?&?&?&?).
  assert (wp (for_each (seq 0 j) (train_iteration a nu))
            (λ _ w', training_progress a (length (seq 0 j)) w0 w')
            (λ _, True) w0) as Hwp.
  { apply training_loop_spec; try done.
    - by apply wf_storage_ready.
    - by eapply setup_discr. }
  destruct (wp_inr _ _ _ _ _ _ Hwp Hrun) as (_&?&?&?&?&?&?&?&?&_).
  apply setup_inr in Hsetup as (_&_&Hgr).
  unfold wf_storage. split_and!; congruence.
Qed.

(** ** Counting in the stage trace *)

Lemma omap_join_replicate {A B} (f : A → option B) n (l : list A) :
  omap f (mjoin (replicate n l)) = mjoin (replicate n (omap f l)).
Proof.
  induction n as [|n IH]; [done|]. simpl. by rewrite omap_app, IH.
Qed.

Lemma filter_join_replicate {A} (P : A → Prop) `{∀ x, Decision (P x)} n (l : list A) :
  length (filter P (mjoin (replicate n l))) = n * length (filter P l).
Proof.
  induction n as [|n IH]; [done|]. simpl.
  by rewrite filter_app, length_app, IH.
Qed.

Lemma rounds_buffer_calls T :
  omap buffer_call_of (mjoin (replicate T round_stages)) = replicate T BInsert.
Proof.
  induction T as [|T IH]; [done|].
  by rewrite join_replicate_S, omap_app, IH, replicate_S_end.
Qed.

Lemma cycle_buffer_calls T :
  omap buffer_call_of (cycle_stages T)
  = replicate T BInsert ++ [BUpdate; BAfterUpdate].
Proof. unfold cycle_stages. by rewrite omap_app, rounds_buffer_calls. Qed.

Lemma cycle_count_update T :
  length (filter (λ s, s = SUpdate) (cycle_stages T)) = 1.
Proof.
  unfold cycle_stages. rewrite filter_app, length_app, filter_join_replicate.
  simpl. lia.
Qed.

Lemma cycle_count_step T :
  length (filter (λ s, s = SStep) (cycle_stages T)) = T.
Proof.
  unfold cycle_stages. rewrite filter_app, length_app, filter_join_replicate.
  simpl. lia.
Qed.

Lemma train_iteration_stages a nu j w w' :
  train_iteration a nu j w = inr (tt, w') →
  ∃ evs, events w' = events w ++ evs
    ∧ stages evs = cycle_stages (num_steps a).
Proof.
  intros Hrun.
  assert (wp (train_iteration a nu j) (λ _ w', iteration_summary a w w')
            (λ _, True) w) as Hwp by (by apply train_iteration_spec).
  by destruct (wp_inr _ _ _ _ _ _ Hwp Hrun) as [Hev _].
Qed.

(** ** The claims *)

(** C1 (amended): in every training iteration the calls of the data flow
    are, in this order, [num_steps] collection steps, each one made of the
    policy's act, the environment step and the insertion into the buffer
    (so the insertion of one step precedes the act of the next), then
    compute_returns, the agent's update and the buffer's after_update, once
    each; slot 0 is not seeded again. *)
Theorem C1_iteration_stage_sequence a nu j w w' :
  train_iteration a nu j w = inr (tt, w') →
  ∃ evs, events w' = events w ++ evs
    ∧ stages evs
      = mjoin (replicate (num_steps a) [SAct; SStep; SInsert])
        ++ [SComputeReturns; SUpdate; SAfterUpdate].
Proof. apply train_iteration_stages. Qed.

(** C4: in a run of the driver the buffer sees, cycle after cycle, exactly
    [num_steps] insertions, then the update, then after_update; so the run
    never stops on an insertion into a full buffer nor on an update of a
    partly filled one. *)
Theorem C4_buffer_protocol a np0 :
  main a np0 ≠ inl (PreconditionViolation InsertIntoFullBuffer)
  ∧ main a np0 ≠ inl (PreconditionViolation UpdateOnPartialBuffer)
  ∧ ∀ w', main a np0 = inr w' →
      ∃ nu, num_updates a = inr nu
        ∧ buffer_calls (events w')
          = mjoin (replicate (Z.to_nat nu)
                     (replicate (num_steps a) BInsert ++ [BUpdate; BAfterUpdate])).
Proof.
  split_and!.
  - intros He. by destruct (main_benign _ _ _ He) as [? _].
  - intros He. by destruct (main_benign _ _ _ He) as [_ ?].
  - intros w' (nu&Hnu&Hst)%main_stages. exists nu. split; [done|].
    unfold buffer_calls. rewrite Hst. simpl.
    by rewrite omap_join_replicate, cycle_buffer_calls.
Qed.

Lemma num_updates_inr a nu :
  num_updates a = inr nu →
  num_steps a ≠ 0 ∧ num_processes a ≠ 0
  ∧ nu = ((int (num_env_steps a) `div` Z.of_nat (num_steps a))
            `div` Z.of_nat (num_processes a))%Z.
Proof.
  unfold num_updates, floordiv. repeat case_decide; try done.
  intros [= <-]. split_and!; [lia|lia|done].
Qed.

Lemma int_nonneg (q : Qc) : (0 ≤ q)%Qc → (0 ≤ int q)%Z.
Proof.
  intros Hq. unfold int. apply Z.quot_pos; [|lia].
  unfold Qcle, Qle in Hq. simpl in Hq. lia.
Qed.

Lemma Qc_of_Z_le_int (z : Z) (q : Qc) :
  (0 ≤ q)%Qc → (z ≤ int q)%Z → (Qc_of_Z z ≤ q)%Qc.
Proof.
  intros Hq Hz. unfold Qcle, Qle in *. simpl in *.
  assert (0 ≤ Qnum q)%Z as Hn by lia.
  unfold int in Hz. rewrite Z.quot_div_nonneg in Hz by lia.
  pose proof (Z.mul_div_le (Qnum q) (Z.pos (Qden q))). nia.
Qed.

(** C10 (amended): a run that completes on a non-negative [num_env_steps]
    executes int(num_env_steps) // num_steps // num_processes update
    cycles, and collects num_updates × num_steps × num_processes
    environment transitions, which is at most [num_env_steps]. *)
Theorem C10_update_count a np0 w' :
  (0 ≤ num_env_steps a)%Qc →
  main a np0 = inr w' →
  ∃ nu : Z,
    nu = ((int (num_env_steps a) `div` Z.of_nat (num_steps a))
            `div` Z.of_nat (num_processes a))%Z
    ∧ Z.of_nat (update_cycles (events w')) = nu
    ∧ Z.of_nat (transitions (num_processes a) (events w'))
      = (nu * Z.of_nat (num_steps a) * Z.of_nat (num_processes a))%Z
    ∧ (Qc_of_Z (nu * Z.of_nat (num_steps a) * Z.of_nat (num_processes a))
       ≤ num_env_steps a)%Qc.
Proof.
  intros Hq (nu&Hnu&Hst)%main_stages.
  apply num_updates_inr in Hnu as (HT&HN&Hnu).
  pose proof (int_nonneg _ Hq) as Hint.
  set (T := Z.of_nat (num_steps a)) in *.
  set (N := Z.of_nat (num_processes a)) in *.
  assert (0 < T)%Z as HTpos by lia.
  assert (0 < N)%Z as HNpos by lia.
  assert (0 ≤ int (num_env_steps a) `div` T)%Z as Hd1
    by (apply Z.div_pos; lia).
  assert (0 ≤ nu)%Z as Hnu0 by (subst nu; apply Z.div_pos; lia).
  exists nu. split_and!; [done| | |].
  - unfold update_cycles, calls_of. rewrite Hst.
    rewrite filter_cons_False by done.
    rewrite filter_join_replicate, cycle_count_update. lia.
  - unfold transitions, calls_of. rewrite Hst.
    rewrite filter_cons_False by done.
    rewrite filter_join_replicate, cycle_count_step. lia.
  - apply Qc_of_Z_le_int; [done|].
    pose proof (Z.mul_div_le (int (num_env_steps a)) T HTpos).
    pose proof (Z.mul_div_le (int (num_env_steps a) `div` T) N HNpos).
    rewrite Hnu. nia.
Qed.

Lemma collect_step_inr a t w w' :
  collect_step a t w = inr (tt, w') → collect_step_result a t w w'.
Proof.
  intros Hrun.
  assert (wp (collect_step a t) (λ _ w', collect_step_result a t w w')
            (λ _, True) w) as Hwp by (by apply collect_step_spec).
  exact (wp_inr _ _ _ _ _ _ Hwp Hrun).
Qed.

(** C2: at every collected step the continuation mask inserted into the
    buffer is, lane by lane, 0.0 where the lane's done flag is true and 1.0
    elsewhere, and the valid mask inserted is 0.0 where the lane's info
    dictionary has the key 'bad_transition' and 1.0 elsewhere; these are the
    rows written to slot step+1 of the buffer. *)
Theorem C2_masks_from_done_and_info a t w w' :
  collect_step a t w = inr (tt, w') →
  ∃ ac o r done infos e' front o' h lp v ms bms,
    envs_step (envs w) ac = (o, r, done, infos, e')
    ∧ events w' = events w ++ front ++ [EvInsert o' h ac lp v r ms bms]
    ∧ masks (rollouts w') = <[S (step (rollouts w)) := ms]> (masks (rollouts w))
    ∧ bad_masks (rollouts w')
      = <[S (step (rollouts w)) := bms]> (bad_masks (rollouts w))
    ∧ length ms = length done
    ∧ length bms = length infos
    ∧ (∀ i (d : bool), done !! i = Some d →
         ms !! i = Some (if d then 0%Qc else 1%Qc))
    ∧ (∀ i (inf : info), infos !! i = Some inf →
         bms !! i = Some (if decide ("bad_transition" ∈ dom inf)
                          then 0%Qc else 1%Qc)).
Proof.
  intros (o&h&m&v&ac&lp&hid&g'&o1&r&d&i&e'&o2&_&_&_&_&Hstep&_&Hev&Hins&_)
    %collect_step_inr.
  apply insert_inr in Hins as (_&_&_&_&_&Hm&Hbm&_).
  exists ac, o1, r, d, i, e'.
  exists ([EvAct o h m false; EvStep ac o1 r d i]
          ++ (if flicker a
              then [EvFlicker (np_uniform (numpy w) (length o1)).1] else [])).
  exists o2, hid, lp, v, (done_mask <$> d), (bad_mask <$> i).
  split_and!; [done|by rewrite Hev, <- app_assoc|done|done| | | |].
  - apply length_fmap.
  - apply length_fmap.
  - intros k b Hk. rewrite list_lookup_fmap, Hk. by destruct b.
  - intros k inf Hk. rewrite list_lookup_fmap, Hk. simpl.
    unfold bad_mask. by case_bool_decide; case_decide.
Qed.


Lemma train_iteration_inr a nu j w w' :
  train_iteration a nu j w = inr (tt, w') →
  ∃ w1 w2 w3,
    collection_phase a nu j w = inr (tt, w1)
    ∧ estimation_phase a j w1 = inr (tt, w2)
    ∧ reset_step w2 = inr (tt, w3)
    ∧ bookkeeping a nu j w3 = inr (tt, w').
Proof.
  unfold train_iteration.
  intros ([]&w1&H1&([]&w2&H2&([]&w3&H3&H4)%bind_inr)%bind_inr)%bind_inr.
  by exists w1, w2, w3.
Qed.

Lemma collection_phase_inr a nu j w w' :
  collection_phase a nu j w = inr (tt, w') →
  collect_progress (num_steps a) w w'.
Proof.
  intros Hrun.
  assert (wp (collection_phase a nu j)
            (λ _ w', collect_progress (num_steps a) w w') (λ _, True) w)
    as Hwp by (by apply collection_phase_spec).
  exact (wp_inr _ _ _ _ _ _ Hwp Hrun).
Qed.

Lemma estimation_phase_inr a j w w' :
  estimation_phase a j w = inr (tt, w') → estimation_result a w w'.
Proof.
  intros Hrun.
  assert (wp (estimation_phase a j) (λ _ w', estimation_result a w w')
            (λ _, True) w) as Hwp by (by apply estimation_phase_spec).
  exact (wp_inr _ _ _ _ _ _ Hwp Hrun).
Qed.

Lemma reset_step_inr w w' :
  reset_step w = inr (tt, w') →
  events w' = events w ++ [EvAfterUpdate]
  ∧ rollouts w' = after_update (rollouts w).
Proof.
  intros Hrun.
  destruct (wp_inr _ _ _ _ _ _ (reset_step_spec w (λ _, True)) Hrun)
    as (?&?&_).
  done.
Qed.

Lemma bookkeeping_inr a nu j w w' :
  bookkeeping a nu j w = inr (tt, w') → quiet w w'.
Proof.
  intros Hrun.
  assert (wp (bookkeeping a nu j) (λ _ w', quiet w w') (λ _, True) w)
    as Hwp by (by apply bookkeeping_spec).
  exact (wp_inr _ _ _ _ _ _ Hwp Hrun).
Qed.



Lemma for_each_app {A} (l1 l2 : list A) (body : A → M unit) w w1 w2 :
  for_each l1 body w = inr (tt, w1) →
  for_each l2 body w1 = inr (tt, w2) →
  for_each (l1 ++ l2) body w = inr (tt, w2).
Proof.
  revert w. induction l1 as [|x l1 IH]; intros w Hl1 Hl2; simpl in *.
  - unfold mret, M_ret in Hl1. by simplify_eq.
  - unfold mbind, M_bind in *.
    destruct (body x w) as [e|[[] w0]]; [done|]. by apply IH.
Qed.

Lemma at_iteration_next a np0 nu j w w' :
  at_iteration a np0 nu j w →
  train_iteration a nu j w = inr (tt, w') →
  (Z.of_nat (S j) < nu)%Z →
  at_iteration a np0 nu (S j) w'.
Proof.
  intros (w0&Hsetup&Hnu&_&Hrun) Hit Hlt. exists w0. split_and!; try done.
  rewrite seq_S. eapply for_each_app; [done|]. simpl.
  unfold mbind, M_bind. by rewrite Hit.
Qed.

Lemma carry_lookup {A} T (l : list A) x :
  l !! T = Some x → carry T l !! 0 = Some x.
Proof.
  intros Hx. unfold carry. rewrite Hx. apply list_lookup_insert_eq.
  apply lookup_lt_Some in Hx. lia.
Qed.

Lemma cycle_count_seed T :
  length (filter (λ s, s = SSeed) (cycle_stages T)) = 0.
Proof.
  unfold cycle_stages. rewrite filter_app, length_app, filter_join_replicate.
  simpl. lia.
Qed.

(** C5: slot 0 of the buffer is seeded once, before the first cycle, with
    the observation returned by the environments' reset; and at the end of
    every cycle after_update copies the observation, hidden state and mask
    of slot T into slot 0, leaving rewards and actions as they are, so that
    the next cycle starts with slot 0 equal to slot T of the cycle before. *)
Theorem C5_slot0_carry_forward a np0 :
  (∀ w0, setup a np0 = inr w0 →
     obs (rollouts w0) !! 0 = Some (envs_reset (make_vec_envs a)).1
     ∧ stages (events w0) = [SSeed])
  ∧ (∀ w', main a np0 = inr w' → calls_of SSeed (events w') = 1)
  ∧ (∀ nu j w w',
       at_iteration a np0 nu j w →
       train_iteration a nu j w = inr (tt, w') →
       ((Z.of_nat (S j) < nu)%Z → at_iteration a np0 nu (S j) w')
       ∧ ∃ w1 w2 o h m,
           collection_phase a nu j w = inr (tt, w1)
           ∧ estimation_phase a j w1 = inr (tt, w2)
           ∧ obs (rollouts w2) !! num_steps a = Some o
           ∧ recurrent_hidden_states (rollouts w2) !! num_steps a = Some h
           ∧ masks (rollouts w2) !! num_steps a = Some m
           ∧ obs (rollouts w') !! 0 = Some o
           ∧ recurrent_hidden_states (rollouts w') !! 0 = Some h
           ∧ masks (rollouts w') !! 0 = Some m
           ∧ rewards (rollouts w') = rewards (rollouts w2)
           ∧ actions (rollouts w') = actions (rollouts w2)).
Proof.
  split_and!.
  - intros w0 (Hev&Hro&_)%setup_inr. rewrite Hev, Hro. by simpl.
  - intros w' (nu&_&Hst)%main_stages. unfold calls_of. rewrite Hst.
    rewrite filter_cons_True by done. simpl.
    rewrite filter_join_replicate, cycle_count_seed. lia.
  - intros nu j w w' Hat Hit.
    split; [by apply (at_iteration_next _ _ _ _ w)|].
    apply at_iteration_wf in Hat as ((Hcap&Hlo&Hlh&Hlm&_)&_&_).
    apply train_iteration_inr in Hit as (w1&w2&w3&Hc&He&Hr&Hb).
    pose proof (collection_phase_inr _ _ _ _ _ Hc)
      as (_&Hcap1&_&Hlo1&Hlh1&Hlm1&_).
    pose proof (estimation_phase_inr _ _ _ _ He)
      as (_&_&_&nv&_&bg&_&_&_&_&_&_&_&_&_&_&Hsame&Hro2&_).
    destruct Hsame as (Hcapg&_&Hobs&Hhid&Hmasks&_).
    apply reset_step_inr in Hr as (_&Hro3).
    apply bookkeeping_inr in Hb as (_&Hro4&_).
    assert (is_Some (obs (rollouts w1) !! num_steps a)) as [o Ho]
      by (apply lookup_lt_is_Some; lia).
    assert (is_Some (recurrent_hidden_states (rollouts w1) !! num_steps a))
      as [h Hh] by (apply lookup_lt_is_Some; lia).
    assert (is_Some (masks (rollouts w1) !! num_steps a)) as [m Hm]
      by (apply lookup_lt_is_Some; lia).
    exists w1, w2, o, h, m.
    rewrite Hro4, Hro3, Hro2. simpl. rewrite Hcapg, Hcap1, Hcap, Hobs, Hhid, Hmasks.
    split_and!; try done; by apply carry_lookup.
Qed.

(** C7: with the discriminator enabled, in every training iteration each
    reward slot t of 0..T-1 is overwritten with what discr.predict_reward
    returns on that slot's observation and action, the discount factor and
    that slot's mask; the T calls come in the order of the slots, all of
    them before compute_returns, which reads the overwritten rewards. *)
Theorem C7_gail_rewards a nu j w w' :
  gail a = true →
  train_iteration a nu j w = inr (tt, w') →
  ∃ w1 front prs nv bg back,
    collection_phase a nu j w = inr (tt, w1)
    ∧ events w' = events w1 ++ front ++ prs
        ++ [EvComputeReturns nv (use_gae a) (gamma a) (gae_lambda a)
              (use_proper_time_limits a)]
        ++ back
    ∧ length prs = num_steps a
    ∧ (∀ t, t < num_steps a → ∃ d o ac m,
         obs (rollouts w1) !! t = Some o
         ∧ actions (rollouts w1) !! t = Some ac
         ∧ masks (rollouts w1) !! t = Some m
         ∧ prs !! t = Some (EvPredictReward t o ac (gamma a) m
                              (predict_reward d o ac (gamma a) m).1)
         ∧ rewards bg !! t = Some (predict_reward d o ac (gamma a) m).1)
    ∧ returns (rollouts w')
      = return_table nv (use_gae a) (gamma a) (gae_lambda a)
          (use_proper_time_limits a) bg
    ∧ rewards (rollouts w') = rewards bg.
Proof.
  intros Hgail (w1&w2&w3&Hc&He&Hr&Hb)%train_iteration_inr.
  apply estimation_phase_inr in He
    as (o&h&m&nv&mid&bg&l1&l2&l3&_&_&_&_&Hev2&_&Hmid&_&Hro2&_).
  rewrite Hgail in Hmid. destruct Hmid as (pre&prs&->&_&Hlen&Hprs).
  apply reset_step_inr in Hr as (Hev3&Hro3).
  apply bookkeeping_inr in Hb as ([e4 [Hev4 _]]&Hro4&_).
  exists w1, ([EvGetValue o h m false nv] ++ pre), prs, nv, bg,
    ([EvUpdate l1 l2 l3; EvAfterUpdate] ++ e4).
  split_and!; try done.
  - rewrite Hev4, Hev3, Hev2, <- !app_assoc. done.
  - by rewrite Hro4, Hro3, Hro2.
  - by rewrite Hro4, Hro3, Hro2.
Qed.

Lemma cell_return_table nv ug γ lam pr (b : RolloutStorage) t i :
  t < capacity b → i < length nv →
  cell (return_table nv ug γ lam pr b) t i
  = return_at γ lam
      (λ t, cell (rewards b) t i) (lane_values b nv i)
      (λ t, cell (masks b) t i) (λ t, cell (bad_masks b) t i)
      (default 0%Qc (nv !! i)) (select_mode ug pr) (capacity b) t.
Proof.
  intros Ht Hi. unfold return_table. unfold cell at 1.
  rewrite list_lookup_fmap, lookup_seq_lt by done. simpl.
  by rewrite list_lookup_fmap, lookup_seq_lt.
Qed.

Lemma return_at_terminal γ lam (r v m bm r' v' : nat → Qc) boot boot' mode T t :
  t < T → m (S t) = 0%Qc → r' t = r t → v' t = v t →
  return_at γ lam r' v' m bm boot' mode T t
  = return_at γ lam r v m bm boot mode T t.
Proof.
  intros Ht Hm Hr Hv. unfold return_at.
  destruct (T - t) as [|k] eqn:Hk; [lia|].
  destruct mode as [|proper|]; simpl; rewrite ?Hm, ?Hr, ?Hv; ring.
Qed.

(** C6: when mask[t+1] is 0 in lane i, return[t] of that lane is the same
    for any two inputs of compute_returns that have the same masks, valid
    masks and flags and agree on the rewards and value estimates of slots
    0..t; the value estimate of slot t+1, the bootstrap value and every
    reward and value after slot t can differ. *)
Theorem C6_terminal_blocks_leakage (b b' : RolloutStorage) (nv nv' : row)
    (ug pr : bool) (γ lam : Qc) (t i : nat) :
  t < capacity b → capacity b' = capacity b →
  i < length nv → length nv' = length nv →
  masks b' = masks b → bad_masks b' = bad_masks b →
  (∀ s, s ≤ t → cell (rewards b') s i = cell (rewards b) s i) →
  (∀ s, s ≤ t → cell (value_preds b') s i = cell (value_preds b) s i) →
  cell (masks b) (S t) i = 0%Qc →
  cell (returns (compute_returns nv' ug γ lam pr b')) t i
  = cell (returns (compute_returns nv ug γ lam pr b)) t i.
Proof.
  intros Ht Hcap Hi Hlen Hm Hbm Hr Hv Hterm. simpl.
  rewrite !cell_return_table by lia. rewrite Hcap, Hm, Hbm.
  apply return_at_terminal; [done|done|by apply Hr|].
  unfold lane_values. rewrite Hcap.
  case_decide; [lia|]. by apply Hv.
Qed.

(** ** Further properties of the driver *)

Lemma num_updates_zero a :
  num_steps a = 0 ∨ num_processes a = 0 →
  num_updates a = inl ZeroDivisionError.
Proof.
  unfold num_updates, floordiv. intros Hz.
  repeat case_decide; try done; lia.
Qed.

(** X1 (main.py lines 127-128): with a horizon of zero steps, or with no
    process, the floor divisions that count the updates raise
    ZeroDivisionError as soon as the set-up of lines 41-124 is through:
    no iteration runs and nothing is written. *)
Theorem main_zero_division a np0 w0 :
  setup a np0 = inr w0 →
  num_steps a = 0 ∨ num_processes a = 0 →
  main a np0 = inl ZeroDivisionError.
Proof.
  intros Hsetup Hz. unfold main, training. rewrite Hsetup.
  unfold mbind, M_bind, lift. by rewrite num_updates_zero.
Qed.

Lemma num_updates_short a :
  0 < num_steps a → 0 < num_processes a →
  (int (num_env_steps a) < Z.of_nat (num_steps a * num_processes a))%Z →
  ∃ nu, num_updates a = inr nu ∧ (nu ≤ 0)%Z.
Proof.
  intros HT HN Hlt. unfold num_updates, floordiv.
  repeat case_decide; try lia. eexists. split; [done|].
  assert (int (num_env_steps a) `div` Z.of_nat (num_steps a)
          < Z.of_nat (num_processes a))%Z as Hq.
  { apply Z.div_lt_upper_bound; lia. }
  assert ((int (num_env_steps a) `div` Z.of_nat (num_steps a))
            `div` Z.of_nat (num_processes a) < 1)%Z; [|lia].
  apply Z.div_lt_upper_bound; lia.
Qed.

(** X2 (main.py lines 127-130 and 233-248): when the budget of environment
    steps is below one cycle of [num_steps * num_processes] transitions, the
    loop of line 130 has no iteration.  The run returns, the buffer is the
    one the set-up built, and the trace of the set-up is followed by one
    call only, the dump of an empty list of means to the log file under
    the expanded log directory: no act, no environment step, no insertion,
    no update, no checkpoint and no report is made. *)
Theorem main_without_iterations a np0 w0 :
  setup a np0 = inr w0 →
  0 < num_steps a → 0 < num_processes a →
  (int (num_env_steps a) < Z.of_nat (num_steps a * num_processes a))%Z →
  ∃ w', main a np0 = inr w'
    ∧ events w' = events w0 ++ [EvDump (log_mean_file a) []]
    ∧ rollouts w' = rollouts w0.
Proof.
  intros Hsetup HT HN Hlt.
  destruct (num_updates_short a HT HN Hlt) as (nu&Hnu&Hle).
  pose proof (setup_statistics _ _ _ Hsetup) as (_&Hmean&_).
  unfold main, training. rewrite Hsetup.
  unfold mbind, M_bind, lift. rewrite Hnu.
  unfold range. replace (Z.to_nat nu) with 0 by lia. simpl.
  eexists. split; [done|]. split; [|done].
  unfold events. simpl. by rewrite reverse_cons, Hmean.
Qed.

(** *** The record of finished episodes *)

Lemma last_n_app {A} n (l1 l2 : list A) :
  last_n n (last_n n l1 ++ l2) = last_n n (l1 ++ l2).
Proof.
  unfold last_n.
  rewrite <- (drop_app_le l1 l2 (length l1 - n)) by lia.
  rewrite drop_drop. f_equal.
  rewrite length_drop, !length_app. lia.
Qed.

Lemma last_n_short {A} n (l : list A) : length l ≤ n → last_n n l = l.
Proof. intros Hl. unfold last_n. by replace (length l - n) with 0 by lia. Qed.

Lemma length_last_n {A} n (l : list A) : length (last_n n l) ≤ n.
Proof. unfold last_n. rewrite length_drop. lia. Qed.

Lemma deque_append_last_n n x (l : row) :
  length l ≤ n → deque_append n x l = last_n n (l ++ [x]).
Proof.
  intros Hl. unfold deque_append, last_n.
  case_decide as Hlen; rewrite length_app in *; simpl in *.
  - by replace (length l + 1 - n) with 1 by lia.
  - by replace (length l + 1 - n) with 0 by lia.
Qed.

Lemma record_episodes_inr infos w w' :
  record_episodes infos w = inr (tt, w') →
  stats_only w w'
  ∧ mean_episode_rewards w' = mean_episode_rewards w
  ∧ max_episode_rewards w' = max_episode_rewards w
  ∧ (length (episode_rewards w) ≤ 10 →
     episode_rewards w'
     = last_n 10 (episode_rewards w ++ episode_returns infos)).
Proof.
  unfold record_episodes, episode_returns.
  revert w. induction infos as [|i infos IH]; intros w Hrun; simpl in *.
  - unfold mret, M_ret in Hrun. simplify_eq. rewrite app_nil_r.
    split_and!; [apply stats_only_refl|done|done|].
    intros Hlen. by rewrite last_n_short.
  - apply bind_inr in Hrun as ([]&w1&Hi&Hrest).
    destruct (i !! "episode") as [[b|r]|] eqn:Hep; simpl in *.
    + done.
    + unfold modify in Hi. simplify_eq.
      apply IH in Hrest as (Hst&?&?&Hep'); simpl in *.
      split_and!; [eapply stats_only_trans; [|exact Hst]; by repeat split
                  |done|done|].
      intros Hlen. rewrite Hep'.
      * rewrite deque_append_last_n by done.
        rewrite last_n_app. by rewrite <- app_assoc.
      * rewrite deque_append_last_n by done. apply length_last_n.
    + unfold mret, M_ret in Hi. simplify_eq. by apply IH.
Qed.

(** X6 (main.py lines 119 and 154-156): after the loop over the info
    dictionaries of one environment step, the deque of episode returns
    holds the ten most recent ones, oldest first: its former contents
    followed by the returns of the lanes that finished an episode, in the
    order of the lanes, cut to the last ten. *)
Theorem record_episodes_keeps_last_ten infos w w' :
  record_episodes infos w = inr (tt, w') →
  length (episode_rewards w) ≤ 10 →
  episode_rewards w'
  = last_n 10 (episode_rewards w ++ episode_returns infos)
  ∧ length (episode_rewards w') ≤ 10.
Proof.
  intros Hrun Hlen.
  destruct (record_episodes_inr _ _ _ Hrun) as (_&_&_&Hep).
  split; [by apply Hep|]. rewrite Hep by done. apply length_last_n.
Qed.

(** *** What a collection step and the bookkeeping do to the trace and to
    the statistics *)

Lemma wp_run {A} (m : M A) (Q : A → World → Prop) w :
  (∀ x w', m w = inr (x, w') → Q x w') → wp m Q (λ _, True) w.
Proof. unfold wp. intros HQ. destruct (m w) as [e|[x w']]; auto. Qed.

Lemma wp_elim (m : M unit) (Q : World → Prop) w :
  wp m (λ _, Q) (λ _, True) w → ∀ w', m w = inr (tt, w') → Q w'.
Proof. intros Hwp w' Hrun. exact (wp_inr _ _ _ _ _ _ Hwp Hrun). Qed.

Lemma reported_returns_app evs1 evs2 :
  reported_returns (evs1 ++ evs2)
  = reported_returns evs1 ++ reported_returns evs2.
Proof. unfold reported_returns. by rewrite fmap_app, join_app. Qed.

Lemma checkpoints_app evs1 evs2 :
  checkpoints (evs1 ++ evs2) = checkpoints evs1 ++ checkpoints evs2.
Proof. apply omap_app. Qed.

Lemma collect_step_effect a t w w' :
  collect_step a t w = inr (tt, w') →
  ∃ new infos,
    events w' = events w ++ new
    ∧ Forall (collect_event a) new
    ∧ reported_returns new = episode_returns infos
    ∧ mean_episode_rewards w' = mean_episode_rewards w
    ∧ max_episode_rewards w' = max_episode_rewards w
    ∧ (length (episode_rewards w) ≤ 10 →
       episode_rewards w'
       = last_n 10 (episode_rewards w ++ episode_returns infos)).
Proof.
  revert w'. apply wp_elim.
  unfold collect_step, sample_actions. wp_steps.
  destruct (act (agent w) (torch w) x x0 x1) as [[[[v ac] lp] hid] g'] eqn:Hact.
  simpl. wp_steps.
  destruct (envs_step (envs w) ac) as [[[[o1 r] d] i] e'] eqn:Hstep.
  wp_steps. unfold flicker_step.
  destruct (flicker a) eqn:Hfl; wp_steps.
  all: apply wp_run; intros [] w3 (Hst&Hme&Hmx&Hep)%record_episodes_inr.
  all: destruct Hst as (_&_&_&_&_&Hro&_&Hlog); simpl in *.
  all: wp_steps; apply wp_lift; [done|intros b' _]; wp_steps.
  - exists ([EvAct x x0 x1 false; EvStep ac o1 r d i;
             EvFlicker (np_uniform (numpy w) (length o1)).1;
             EvInsert (flicker_obs (np_uniform (numpy w) (length o1)).1 o1)
               hid ac lp v r (done_mask <$> d) (bad_mask <$> i)]), i.
    split_and!; try done.
    + unfold events. simpl. rewrite Hlog. simpl.
      by rewrite !reverse_cons, <- !app_assoc.
    + repeat constructor. done.
    + unfold reported_returns. simpl. by rewrite app_nil_r.
  - exists ([EvAct x x0 x1 false; EvStep ac o1 r d i;
             EvInsert o1 hid ac lp v r (done_mask <$> d) (bad_mask <$> i)]), i.
    split_and!; try done.
    + unfold events. simpl. rewrite Hlog. simpl.
      by rewrite !reverse_cons, <- !app_assoc.
    + repeat constructor.
    + unfold reported_returns. simpl. by rewrite app_nil_r.
Qed.

Lemma modulo_inr x y r : modulo x y = inr r → r = (x `mod` y)%Z.
Proof. unfold modulo. case_decide; [done|]. by intros [= <-]. Qed.

Lemma when_inr c m w w' :
  when c m w = inr (tt, w') →
  if c then m w = inr (tt, w') else w' = w.
Proof. destruct c; simpl; [done|]. unfold mret, M_ret. by intros [= <-]. Qed.

Lemma lift_inr {A} (x : exn + A) w y w' :
  lift x w = inr (y, w') → x = inr y ∧ w' = w.
Proof. unfold lift. destruct x; [done|]. by intros [= <- <-]. Qed.

Lemma emit_inr ev w w' :
  emit ev w = inr (tt, w') → w' = with_log (ev :: log w) w.
Proof. unfold emit, modify. by intros [= <-]. Qed.

Lemma save_checkpoint_inr a nu j w w' :
  save_checkpoint a nu j w = inr (tt, w') →
  events w' = events w ++ save_calls a nu j ∧ same_but_log w w'.
Proof.
  unfold save_checkpoint, save_calls.
  intros (r&w1&[Hr ->]%lift_inr&Hw)%bind_inr.
  apply modulo_inr in Hr as ->. apply when_inr in Hw.
  destruct (_ && _).
  - apply emit_inr in Hw as ->. split; [apply events_emit|by repeat split].
  - subst w'. split; [by rewrite app_nil_r|by repeat split].
Qed.

Lemma print_progress_inr a j w w' :
  print_progress a j w = inr (tt, w') →
  events w' = events w ++ print_calls a j (episode_rewards w)
  ∧ same_but_log w w'.
Proof.
  unfold print_progress, print_calls.
  intros (r&w1&[Hr ->]%lift_inr&Hw)%bind_inr.
  apply modulo_inr in Hr as ->. simpl in Hw. apply when_inr in Hw.
  destruct (_ && _).
  - apply emit_inr in Hw as ->. split; [apply events_emit|by repeat split].
  - subst w'. split; [by rewrite app_nil_r|by repeat split].
Qed.

Lemma run_evaluation_inr a j w w' :
  run_evaluation a j w = inr (tt, w') →
  events w' = events w ++ evaluate_calls a j (episode_rewards w)
  ∧ same_but_log w w'.
Proof.
  unfold run_evaluation, evaluate_calls.
  destruct (eval_interval a) as [ei|].
  - intros (ep&w1&Hg&Hw)%bind_inr. unfold gets in Hg.
    injection Hg as <- <-. revert Hw.
    destruct (decide (1 < length (episode_rewards w))) as [Hlen|Hlen].
    + rewrite bool_decide_eq_true_2 by done. simpl.
      intros (r&w1&[Hr ->]%lift_inr&Hw)%bind_inr.
      apply modulo_inr in Hr as ->. apply when_inr in Hw.
      destruct (bool_decide _).
      * apply emit_inr in Hw as ->.
        split; [apply events_emit|by repeat split].
      * subst w'. split; [by rewrite app_nil_r|by repeat split].
    + rewrite bool_decide_eq_false_2 by done. simpl.
      unfold mret, M_ret. intros [= <-].
      split; [by rewrite app_nil_r|by repeat split].
  - unfold mret, M_ret. intros [= <-].
    split; [by rewrite app_nil_r|by repeat split].
Qed.

Lemma same_but_log_trans w1 w2 w3 :
  same_but_log w1 w2 → same_but_log w2 w3 → same_but_log w1 w3.
Proof.
  unfold same_but_log.
  intros (?&?&?&?&?&?&?&?&?&?) (?&?&?&?&?&?&?&?&?&?).
  split_and!; congruence.
Qed.

Lemma bookkeeping_effect a nu j w w' :
  bookkeeping a nu j w = inr (tt, w') →
  events w' = events w ++ save_calls a nu j
                ++ print_calls a j (episode_rewards w)
                ++ evaluate_calls a j (episode_rewards w)
  ∧ episode_rewards w' = episode_rewards w
  ∧ (mean_episode_rewards w', max_episode_rewards w')
    = (if bool_decide (j `mod` 10 = 0)
          && bool_decide (1 < length (episode_rewards w))
       then (mean_episode_rewards w ++ [np_mean (episode_rewards w)],
             max_episode_rewards w ++ [np_amax (episode_rewards w)])
       else (mean_episode_rewards w, max_episode_rewards w)).
Proof.
  unfold bookkeeping.
  intros ([]&w1&[Hev1 Hs1]%save_checkpoint_inr
          &([]&w2&[Hev2 Hs2]%print_progress_inr
            &([]&w3&[Hev3 Hs3]%run_evaluation_inr&Hm)%bind_inr)%bind_inr)
         %bind_inr.
  pose proof (same_but_log_trans _ _ _ Hs1 Hs2) as Hs12.
  pose proof (same_but_log_trans _ _ _ Hs12 Hs3) as Hs13.
  destruct Hs1 as (_&_&_&_&_&_&_&Hep1&_).
  destruct Hs12 as (_&_&_&_&_&_&_&Hep2&_).
  destruct Hs13 as (_&_&_&_&_&_&_&Hep3&Hme3&Hmx3).
  unfold record_means in Hm. simpl in Hm. apply when_inr in Hm.
  rewrite Hep3 in Hm.
  assert (events w' = events w3 ∧ episode_rewards w' = episode_rewards w3)
    as [Hev4 Hep4].
  { destruct (_ && _); [|by subst]. unfold modify in Hm. by simplify_eq. }
  split_and!.
  - rewrite Hev4, Hev3, Hev2, Hev1, Hep2, Hep1, <- !app_assoc. done.
  - congruence.
  - destruct (_ && _).
    + unfold modify in Hm. simplify_eq. simpl. by rewrite Hme3, Hmx3.
    + subst w'. by rewrite Hme3, Hmx3.
Qed.

(** *** Invariants of the training loop

    [P j] is to hold of the world once [j] iterations are complete, and
    throughout iteration [j] up to its bookkeeping.  It is kept by the
    calls of the estimation (with the learning-rate schedule and the carry
    forward), whatever else they change besides the trace, by a collection
    step, and the bookkeeping of iteration [j] takes it to [P (S j)]. *)

Section Invariant.
Variables (a : Args) (nu : Z) (P : nat → World → Prop).

Hypothesis P_extend : ∀ j w w' evs,
  P j w → Forall (estimation_event a) evs →
  events w' = events w ++ evs →
  episode_rewards w' = episode_rewards w →
  mean_episode_rewards w' = mean_episode_rewards w →
  max_episode_rewards w' = max_episode_rewards w →
  P j w'.

Hypothesis P_collect : ∀ j t w w',
  P j w → collect_step a t w = inr (tt, w') → P j w'.

Hypothesis P_bookkeeping : ∀ j w w',
  P j w → (Z.of_nat j < nu)%Z →
  bookkeeping a nu j w = inr (tt, w') → P (S j) w'.

Ltac extend HP evs :=
  eapply (P_extend _ _ _ evs);
    [exact HP|repeat constructor; done|events_done|done..].

Lemma keeps_lr_decay j w :
  use_linear_lr_decay a = true → P j w →
  wp (lr_decay a nu j) (λ _, P j) (λ _, True) w.
Proof.
  intros Hlr HP. unfold lr_decay. wp_steps. extend HP [EvLrDecay j].
Qed.

Lemma keeps_collect j w :
  P j w → wp (collect a) (λ _, P j) (λ _, True) w.
Proof.
  intros HP. unfold collect.
  eapply wp_mono; [apply (wp_for_each (λ _, P j))| |done]; [done| |done].
  intros pre t suf w1 _ Hw1. apply wp_run. intros [] w2 Hrun.
  by eapply P_collect.
Qed.

Lemma keeps_bootstrap_value j w :
  P j w → wp bootstrap_value (λ _, P j) (λ _, True) w.
Proof.
  intros HP. unfold bootstrap_value. wp_steps.
  extend HP [EvGetValue x x0 x1 false (get_value (agent w) x x0 x1)].
Qed.

Lemma keeps_discr_update_step j w :
  gail a = true → P j w → wp discr_update_step (λ _, P j) (λ _, True) w.
Proof.
  intros Hg HP. unfold discr_update_step, get_discr. wp_steps.
  destruct (discr w) as [d|]; [|by apply wp_raise].
  wp_steps. extend HP [EvDiscrUpdate].
Qed.

Lemma keeps_predict_step j t w :
  gail a = true → P j w → wp (predict_step a t) (λ _, P j) (λ _, True) w.
Proof.
  intros Hg HP. unfold predict_step, get_discr. wp_steps.
  destruct (discr w) as [d|]; [|by apply wp_raise].
  wp_steps. case_decide; [|by apply wp_raise]. wp_step.
  extend HP [EvPredictReward t x x0 (gamma a) x1
               (predict_reward d x x0 (gamma a) x1).1].
Qed.

Lemma keeps_gail_phase j k w :
  gail a = true → P j w → wp (gail_phase a k) (λ _, P j) (λ _, True) w.
Proof.
  intros Hg HP. unfold gail_phase. apply wp_bind.
  eapply (wp_mono _ (λ _, P j) _ (λ _, True)); [| |done].
  { apply wp_when; intros _; [|done]. wp_steps. extend HP [EvEnvEval]. }
  intros [] w1 Hw1. apply wp_bind.
  eapply wp_mono; [apply (wp_for_each (λ _, P j))| |done]; [done| |].
  { intros pre x suf w2 _ Hw2. by apply keeps_discr_update_step. }
  intros [] w2 Hw2.
  eapply wp_mono; [apply (wp_for_each (λ _, P j))| |done]; [done| |done].
  intros pre t suf w3 _ Hw3. by apply keeps_predict_step.
Qed.

Lemma keeps_estimate j nv w :
  P j w → wp (estimate a nv) (λ _, P j) (λ _, True) w.
Proof.
  intros HP. unfold estimate. wp_steps.
  extend HP [EvComputeReturns nv (use_gae a) (gamma a) (gae_lambda a)
               (use_proper_time_limits a)].
Qed.

Lemma keeps_update_step j w :
  P j w → wp (update_step a) (λ _, P j) (λ _, True) w.
Proof.
  intros HP. unfold update_step. wp_steps. apply wp_lift; [done|].
  intros [[ag' [[l1 l2] l3]] g'] _. wp_steps. extend HP [EvUpdate l1 l2 l3].
Qed.

Lemma keeps_reset_step j w :
  P j w → wp reset_step (λ _, P j) (λ _, True) w.
Proof.
  intros HP. unfold reset_step. wp_steps. extend HP [EvAfterUpdate].
Qed.

Lemma keeps_collection_phase j w :
  P j w → wp (collection_phase a nu j) (λ _, P j) (λ _, True) w.
Proof.
  intros HP. unfold collection_phase. apply wp_bind.
  eapply (wp_mono _ (λ _, P j) _ (λ _, True)); [| |done].
  { apply wp_when; intros Hlr; [by apply keeps_lr_decay|done]. }
  intros [] w1 Hw1. by apply keeps_collect.
Qed.

Lemma keeps_estimation_phase j k w :
  P j w → wp (estimation_phase a k) (λ _, P j) (λ _, True) w.
Proof.
  intros HP. unfold estimation_phase. apply wp_bind.
  eapply wp_mono; [by apply keeps_bootstrap_value| |done].
  intros nv w3 Hw3. apply wp_bind.
  eapply (wp_mono _ (λ _, P j) _ (λ _, True)); [| |done].
  { apply wp_when; intros Hg; [by apply keeps_gail_phase|done]. }
  intros [] w4 Hw4. apply wp_bind.
  eapply wp_mono; [by apply keeps_estimate| |done].
  intros [] w5 Hw5. by apply keeps_update_step.
Qed.

Lemma keeps_train_iteration j w :
  P j w → (Z.of_nat j < nu)%Z →
  wp (train_iteration a nu j) (λ _, P (S j)) (λ _, True) w.
Proof.
  intros HP Hj. unfold train_iteration. apply wp_bind.
  eapply wp_mono; [by apply keeps_collection_phase| |done].
  intros [] w1 Hw1. apply wp_bind.
  eapply wp_mono; [by apply keeps_estimation_phase| |done].
  intros [] w2 Hw2. apply wp_bind.
  eapply wp_mono; [by apply keeps_reset_step| |done].
  intros [] w3 Hw3. apply wp_run. intros [] w4 Hrun.
  by eapply P_bookkeeping.
Qed.

Lemma keeps_training_loop n w :
  P 0 w → n ≤ Z.to_nat nu →
  wp (for_each (seq 0 n) (train_iteration a nu)) (λ _, P n)
    (λ _, True) w.
Proof.
  intros HP Hn.
  eapply wp_mono;
    [apply (wp_for_each (λ pre, P (length pre)))| |done]; [done| |].
  - intros pre j suf w1 Hl Hw1.
    assert (length pre < n) as Hlt.
    { apply (f_equal length) in Hl.
      rewrite length_seq, length_app in Hl. simpl in Hl. lia. }
    apply seq_middle in Hl as ->.
    eapply wp_mono; [apply keeps_train_iteration; [done|lia]| |done].
    intros [] w2 Hw2. simpl. rewrite length_app. simpl.
    by replace (length pre + 1) with (S (length pre)) by lia.
  - intros [] w'. by rewrite length_seq.
Qed.

Lemma invariant_main np0 w0 w' :
  setup a np0 = inr w0 → num_updates a = inr nu → P 0 w0 →
  main a np0 = inr w' →
  ∃ w1, P (Z.to_nat nu) w1
    ∧ for_each (range nu) (train_iteration a nu) w0 = inr (tt, w1)
    ∧ w' = with_log (EvDump (log_mean_file a) (mean_episode_rewards w1)
                       :: log w1) w1.
Proof.
  intros Hsetup Hnu HP. unfold main. rewrite Hsetup.
  destruct (training a w0) as [e|[[] w2]] eqn:Hrun; [done|].
  intros [= <-]. unfold training in Hrun.
  apply bind_inr in Hrun as (nu'&w0'&[Hnu' ->]%lift_inr&Hrun).
  assert (nu' = nu) as -> by congruence.
  apply bind_inr in Hrun as ([]&w1&Hloop&Hfin).
  exists w1. split_and!; [|done|].
  - eapply (wp_elim _ (P (Z.to_nat nu))); [|exact Hloop].
    by apply keeps_training_loop.
  - unfold finalize in Hfin. simpl in Hfin.
    unfold emit, modify, mbind, M_bind, gets in Hfin. by simplify_eq.
Qed.
End Invariant.

(** *** The calls of a whole run *)

Lemma main_inr a np0 w' :
  main a np0 = inr w' →
  ∃ nu w0 w1,
    setup a np0 = inr w0
    ∧ num_updates a = inr nu
    ∧ for_each (range nu) (train_iteration a nu) w0 = inr (tt, w1)
    ∧ w' = with_log (EvDump (log_mean_file a) (mean_episode_rewards w1)
                       :: log w1) w1.
Proof.
  unfold main. destruct (setup a np0) as [e|w0] eqn:Hsetup; [done|].
  destruct (training a w0) as [e|[[] w2]] eqn:Hrun; [done|].
  intros [= <-]. unfold training in Hrun.
  apply bind_inr in Hrun as (nu&w0'&[Hnu ->]%lift_inr&Hrun).
  apply bind_inr in Hrun as ([]&w1&Hloop&Hfin).
  exists nu, w0, w1. split_and!; try done.
  unfold finalize in Hfin. simpl in Hfin.
  unfold emit, modify, mbind, M_bind, gets in Hfin. by simplify_eq.
Qed.

Lemma bookkeeping_calls_cases a nu j ep ev :
  ev ∈ save_calls a nu j ++ print_calls a j ep ++ evaluate_calls a j ep →
  (ev = EvSave j ∧ save_due a nu j)
  ∨ (ev = EvPrint j ((Z.of_nat j + 1) * Z.of_nat (num_processes a)
                     * Z.of_nat (num_steps a))%Z
     ∧ (Z.of_nat j `mod` log_interval a = 0)%Z ∧ 1 < length ep)
  ∨ (ev = EvEvaluate j
     ∧ ∃ ei, eval_interval a = Some ei
         ∧ (Z.of_nat j `mod` ei = 0)%Z ∧ 1 < length ep).
Proof.
  rewrite !elem_of_app. intros [Hin|[Hin|Hin]].
  - left. unfold save_calls in Hin.
    destruct (_ && _) eqn:Hc; [|by apply elem_of_nil in Hin].
    apply list_elem_of_singleton in Hin as ->.
    apply andb_prop in Hc as [Hc1 Hc2].
    apply bool_decide_eq_true_1 in Hc1. apply negb_true_iff in Hc2.
    apply bool_decide_eq_false_1 in Hc2. by repeat split.
  - right. left. unfold print_calls in Hin.
    destruct (_ && _) eqn:Hc; [|by apply elem_of_nil in Hin].
    apply list_elem_of_singleton in Hin as ->.
    apply andb_prop in Hc as [Hc1 Hc2].
    apply bool_decide_eq_true_1 in Hc1.
    apply bool_decide_eq_true_1 in Hc2. by repeat split.
  - right. right. unfold evaluate_calls in Hin.
    destruct (eval_interval a) as [ei|]; [|by apply elem_of_nil in Hin].
    destruct (_ && _) eqn:Hc; [|by apply elem_of_nil in Hin].
    apply list_elem_of_singleton in Hin as ->.
    apply andb_prop in Hc as [Hc1 Hc2].
    apply bool_decide_eq_true_1 in Hc1.
    apply bool_decide_eq_true_1 in Hc2. split; [done|]. by exists ei.
Qed.

(** Every call of a run is one of the set-up, of a collection step, of the
    estimation, of the bookkeeping of an iteration below [nu], or the final
    dump. *)
Lemma main_events_all a np0 nu w' (C : Event → Prop) :
  main a np0 = inr w' → num_updates a = inr nu →
  C (EvManualSeed (seed a)) →
  (∀ o, C (EvReset o)) → (∀ o, C (EvSeedSlot0 o)) →
  (∀ ev, collect_event a ev → C ev) →
  (∀ ev, estimation_event a ev → C ev) →
  (∀ j ep ev, (Z.of_nat j < nu)%Z →
     ev ∈ save_calls a nu j ++ print_calls a j ep ++ evaluate_calls a j ep →
     C ev) →
  (∀ d, C (EvDump (log_mean_file a) d)) →
  Forall C (events w').
Proof.
  intros Hmain Hnu Hseed Hreset Hslot Hcol Hest Hbook Hdump.
  pose proof Hmain as (nu'&w0&w1&Hsetup&Hnu'&_&_)%main_inr.
  assert (nu' = nu) as -> by congruence.
  destruct (invariant_main a nu (λ _ w, Forall C (events w))) with np0 w0 w'
    as (w2&HP&_&->); try done.
  - intros j w w2 evs HP Hevs -> _ _ _. apply Forall_app. split; [done|].
    eapply Forall_impl; [exact Hevs|done].
  - intros j t w w2 HP (new&infos&->&Hnew&_)%collect_step_effect.
    apply Forall_app. split; [done|]. eapply Forall_impl; [exact Hnew|done].
  - intros j w w2 HP Hj (->&_)%bookkeeping_effect.
    apply Forall_app. split; [done|]. apply Forall_forall.
    intros ev Hev. by eapply Hbook.
  - apply setup_inr in Hsetup as (->&_). by repeat constructor.
  - rewrite events_emit. apply Forall_app. split; [done|].
    by repeat constructor.
Qed.

Lemma main_grad_enabled a np0 w' : main a np0 = inr w' → grad_enabled w' = true.
Proof.
  intros (nu&w0&w1&Hsetup&Hnu&Hloop&->)%main_inr. simpl.
  pose proof (setup_wf _ _ _ Hsetup) as [Hwf Hstep].
  assert (wp (for_each (range nu) (train_iteration a nu))
            (λ _ w', training_progress a (length (range nu)) w0 w')
            (λ _, True) w0) as Hwp.
  { apply training_loop_spec; try done.
    - by apply wf_storage_ready.
    - by destruct Hwf.
    - by eapply setup_discr. }
  destruct (wp_inr _ _ _ _ _ _ Hwp Hloop) as (_&_&_&_&_&_&_&_&Hgr&_).
  apply setup_inr in Hsetup as (_&_&Hgr0). congruence.
Qed.

(** X7 (main.py lines 140-143 and 167-170): in a run that returns, every
    call of the policy, to act and to value the last slot, is made with
    gradient tracking switched off, and tracking is on again when [main]
    returns. *)
Theorem policy_calls_without_gradients a np0 w' :
  main a np0 = inr w' →
  (∀ o h m g, EvAct o h m g ∈ events w' → g = false)
  ∧ (∀ o h m g v, EvGetValue o h m g v ∈ events w' → g = false)
  ∧ grad_enabled w' = true.
Proof.
  intros Hmain.
  pose proof Hmain as (nu&_&_&_&Hnu&_)%main_inr.
  assert (Forall (λ ev, match ev with
                        | EvAct _ _ _ g | EvGetValue _ _ _ g _ => g = false
                        | _ => True
                        end) (events w')) as Hall.
  { eapply main_events_all; try done.
    - by intros ev [].
    - by intros ev [].
    - intros j ep ev _ [[-> _]|[[-> _]|[-> _]]]%bookkeeping_calls_cases;
        done. }
  rewrite Forall_forall in Hall. split_and!.
  - intros o h m g Hin. exact (Hall _ Hin).
  - intros o h m g v Hin. exact (Hall _ Hin).
  - by eapply main_grad_enabled.
Qed.

(** X8 (main.py lines 132, 149, 172, 196-197 and 221): in a run that
    returns, the optional calls are made under their flags only: the
    learning-rate schedule with [use_linear_lr_decay], the draws of the
    flicker with [flicker], the calls that involve the discriminator with
    [gail], a checkpoint with a non-empty [save_dir], an evaluation with an
    [eval_interval]. *)
Theorem optional_calls_need_their_flags a np0 w' :
  main a np0 = inr w' →
  (∀ j, EvLrDecay j ∈ events w' → use_linear_lr_decay a = true)
  ∧ (∀ u, EvFlicker u ∈ events w' → flicker a = true)
  ∧ (EvEnvEval ∈ events w' → gail a = true)
  ∧ (EvDiscrUpdate ∈ events w' → gail a = true)
  ∧ (∀ t o ac γ m r, EvPredictReward t o ac γ m r ∈ events w' →
       gail a = true)
  ∧ (∀ j, EvSave j ∈ events w' → save_dir a ≠ "")
  ∧ (∀ j, EvEvaluate j ∈ events w' → eval_interval a ≠ None).
Proof.
  intros Hmain.
  pose proof Hmain as (nu&_&_&_&Hnu&_)%main_inr.
  assert (Forall (λ ev, match ev with
                        | EvLrDecay _ => use_linear_lr_decay a = true
                        | EvFlicker _ => flicker a = true
                        | EvEnvEval | EvDiscrUpdate
                        | EvPredictReward _ _ _ _ _ _ => gail a = true
                        | EvSave _ => save_dir a ≠ ""
                        | EvEvaluate _ => eval_interval a ≠ None
                        | _ => True
                        end) (events w')) as Hall.
  { eapply main_events_all; try done.
    - by intros ev [].
    - by intros ev [].
    - intros j ep ev _
        [[-> [? _]]|[[-> _]|[-> (ei&Hei&_)]]]%bookkeeping_calls_cases;
        simpl; [done|done|by rewrite Hei]. }
  rewrite Forall_forall in Hall. split_and!.
  - intros j Hin. exact (Hall _ Hin).
  - intros u Hin. exact (Hall _ Hin).
  - intros Hin. exact (Hall _ Hin).
  - intros Hin. exact (Hall _ Hin).
  - intros t o ac γ m r Hin. exact (Hall _ Hin).
  - intros j Hin. exact (Hall _ Hin).
  - intros j Hin. exact (Hall _ Hin).
Qed.

Lemma estimation_events_quiet a evs :
  Forall (estimation_event a) evs →
  reported_returns evs = [] ∧ checkpoints evs = [].
Proof.
  induction 1 as [|ev evs Hev _ [IH1 IH2]]; [done|].
  unfold reported_returns, checkpoints in *. by destruct Hev.
Qed.

Lemma collect_events_checkpoints a evs :
  Forall (collect_event a) evs → checkpoints evs = [].
Proof.
  induction 1 as [|ev evs Hev _ IH]; [done|].
  unfold checkpoints in *. by destruct Hev.
Qed.

Lemma bookkeeping_calls_quiet a nu j ep :
  reported_returns
    (save_calls a nu j ++ print_calls a j ep ++ evaluate_calls a j ep) = []
  ∧ checkpoints
      (save_calls a nu j ++ print_calls a j ep ++ evaluate_calls a j ep)
    = (if decide (save_due a nu j) then [j] else []).
Proof.
  rewrite !reported_returns_app, !checkpoints_app.
  assert (reported_returns (print_calls a j ep) = []
          ∧ checkpoints (print_calls a j ep) = []) as [-> ->].
  { unfold print_calls. by destruct (_ && _). }
  assert (reported_returns (evaluate_calls a j ep) = []
          ∧ checkpoints (evaluate_calls a j ep) = []) as [-> ->].
  { unfold evaluate_calls. destruct (eval_interval a); [|done].
    by destruct (_ && _). }
  rewrite !app_nil_r. unfold save_calls, save_due.
  destruct (_ && _) eqn:Hc.
  - apply andb_prop in Hc as [Hc1 Hc2].
    apply bool_decide_eq_true_1 in Hc1. apply negb_true_iff in Hc2.
    apply bool_decide_eq_false_1 in Hc2. by rewrite decide_True.
  - rewrite decide_False; [done|]. intros [Hdir Hj].
    apply andb_false_iff in Hc as [Hc|Hc].
    + by apply bool_decide_eq_false_1 in Hc.
    + apply negb_false_iff in Hc. by apply bool_decide_eq_true_1 in Hc.
Qed.

(** X9 (main.py lines 196-207): the checkpoints of a run that returns are
    written at exactly the iterations [j] below the number of updates with
    [j % save_interval == 0] or [j == num_updates - 1], once each and in
    increasing order, provided [save_dir] is not empty; with an empty
    [save_dir] none is written. *)
Theorem main_checkpoints a np0 nu w' :
  main a np0 = inr w' → num_updates a = inr nu →
  checkpoints (events w') = filter (save_due a nu) (seq 0 (Z.to_nat nu)).
Proof.
  intros Hmain Hnu.
  pose proof Hmain as (nu'&w0&w1&Hsetup&Hnu'&_&_)%main_inr.
  assert (nu' = nu) as -> by congruence.
  destruct (invariant_main a nu
              (λ j w, checkpoints (events w) = filter (save_due a nu) (seq 0 j)))
    with np0 w0 w' as (w2&HP&_&->); try done.
  - intros j w w2 evs HP [_ Hevs]%estimation_events_quiet -> _ _ _.
    by rewrite checkpoints_app, Hevs, app_nil_r.
  - intros j t w w2 HP (new&infos&->&Hnew&_)%collect_step_effect.
    apply collect_events_checkpoints in Hnew.
    by rewrite checkpoints_app, Hnew, app_nil_r.
  - intros j w w2 HP Hj (->&_)%bookkeeping_effect.
    rewrite checkpoints_app, (proj2 (bookkeeping_calls_quiet _ _ _ _)), HP.
    rewrite seq_S, filter_app. simpl. by f_equal.
  - apply setup_inr in Hsetup as (->&_). done.
  - rewrite events_emit, checkpoints_app. simpl. by rewrite app_nil_r.
Qed.

(** X10 (main.py lines 119 and 154-156, over the whole run): when [main]
    returns, the deque of episode returns holds the ten most recent
    episode returns that the environment steps of the run have reported,
    oldest first. *)
Theorem main_episode_record a np0 w' :
  main a np0 = inr w' →
  episode_rewards w' = last_n 10 (reported_returns (events w')).
Proof.
  intros Hmain.
  pose proof Hmain as (nu&w0&w1&Hsetup&Hnu&_&_)%main_inr.
  destruct (invariant_main a nu
              (λ _ w, episode_rewards w
                      = last_n 10 (reported_returns (events w))))
    with np0 w0 w' as (w2&HP&_&->); try done.
  - intros j w w2 evs HP [Hevs _]%estimation_events_quiet -> -> _ _.
    by rewrite reported_returns_app, Hevs, app_nil_r.
  - intros j t w w2 HP
      (new&infos&->&_&Hnew&_&_&Hep)%collect_step_effect.
    rewrite reported_returns_app, Hnew, Hep.
    + by rewrite HP, last_n_app.
    + rewrite HP. apply length_last_n.
  - intros j w w2 HP Hj (->&->&_)%bookkeeping_effect.
    rewrite reported_returns_app.
    by rewrite (proj1 (bookkeeping_calls_quiet _ _ _ _)), app_nil_r.
  - pose proof (setup_statistics _ _ _ Hsetup) as (->&_).
    by apply setup_inr in Hsetup as (->&_).
  - rewrite events_emit, reported_returns_app. simpl.
    by rewrite app_nil_r.
Qed.


(** *** The calls of one iteration *)

Lemma bookkeeping_calls_stages a nu j ep :
  stages (save_calls a nu j ++ print_calls a j ep ++ evaluate_calls a j ep)
  = [].
Proof.
  rewrite !stages_app. unfold save_calls, print_calls, evaluate_calls.
  destruct (_ && _); destruct (_ && _); destruct (eval_interval a);
    try destruct (_ && _); done.
Qed.

Lemma train_iteration_trace a nu j w w' :
  train_iteration a nu j w = inr (tt, w') →
  ∃ front,
    events w' = events w ++ front ++ save_calls a nu j
                  ++ print_calls a j (episode_rewards w')
                  ++ evaluate_calls a j (episode_rewards w')
    ∧ Forall (λ ev, collect_event a ev ∨ estimation_event a ev) front
    ∧ stages front = cycle_stages (num_steps a).
Proof.
  intros Hrun.
  pose proof (train_iteration_stages _ _ _ _ _ Hrun) as (evs&Hevs&Hst).
  apply train_iteration_inr in Hrun as (w1&w2&w3&H1&H2&H3&H4).
  set (P := λ (_ : nat) (w1 : World), ∃ front,
         events w1 = events w ++ front
         ∧ Forall (λ ev, collect_event a ev ∨ estimation_event a ev) front).
  assert (∀ k u u' evs, P k u → Forall (estimation_event a) evs →
            events u' = events u ++ evs →
            episode_rewards u' = episode_rewards u →
            mean_episode_rewards u' = mean_episode_rewards u →
            max_episode_rewards u' = max_episode_rewards u → P k u')
    as Hextend.
  { intros k u u' new (front&Hfront&Hall) Hnew Hu' _ _ _.
    exists (front ++ new). split; [by rewrite Hu', Hfront, app_assoc|].
    apply Forall_app. split; [done|].
    eapply Forall_impl; [exact Hnew|]. by right. }
  assert (∀ k t u u', P k u → collect_step a t u = inr (tt, u') → P k u')
    as Hcollect.
  { intros k t u u' (front&Hfront&Hall)
      (new&infos&Hu'&Hnew&_)%collect_step_effect.
    exists (front ++ new). split; [by rewrite Hu', Hfront, app_assoc|].
    apply Forall_app. split; [done|].
    eapply Forall_impl; [exact Hnew|]. by left. }
  assert (P 0 w) as HP0.
  { exists []. by rewrite app_nil_r. }
  pose proof (wp_elim _ _ _
    (keeps_collection_phase a nu P Hextend Hcollect j w HP0) _ H1) as HP1.
  pose proof (wp_elim _ _ _
    (keeps_estimation_phase a P Hextend j j w1 HP1) _ H2) as HP2.
  pose proof (wp_elim _ _ _
    (keeps_reset_step a P Hextend j w2 HP2) _ H3) as (front&Hfront&Hall).
  apply bookkeeping_effect in H4 as (Hev4&Hep4&_).
  exists front. rewrite Hep4. split_and!; [|done|].
  - by rewrite Hev4, Hfront, <- app_assoc.
  - rewrite Hev4, Hfront, <- app_assoc in Hevs.
    apply app_inv_head in Hevs. rewrite <- Hevs in Hst.
    rewrite stages_app, bookkeeping_calls_stages, app_nil_r in Hst. done.
Qed.

Lemma calls_of_app s evs1 evs2 :
  calls_of s (evs1 ++ evs2) = calls_of s evs1 + calls_of s evs2.
Proof. unfold calls_of. by rewrite stages_app, filter_app, length_app. Qed.

Lemma prints_from_app N c evs1 evs2 :
  prints_from N c (evs1 ++ evs2)
  ↔ prints_from N c evs1 ∧ prints_from N (c + calls_of SStep evs1) evs2.
Proof.
  revert c. induction evs1 as [|ev evs1 IH]; intros c; simpl.
  - replace (c + calls_of SStep []) with c by (unfold calls_of; simpl; lia).
    tauto.
  - rewrite IH.
    replace (c + calls_of SStep (ev :: evs1))
      with (c + calls_of SStep [ev] + calls_of SStep evs1)
      by (change (ev :: evs1) with ([ev] ++ evs1);
          rewrite (calls_of_app SStep [ev] evs1); lia).
    tauto.
Qed.

Lemma prints_from_front a N c evs :
  Forall (λ ev, collect_event a ev ∨ estimation_event a ev) evs →
  prints_from N c evs.
Proof.
  intros Hall. revert c. induction Hall as [|ev evs Hev _ IH]; intros c.
  - done.
  - simpl. split; [|apply IH]. by destruct Hev as [[]|[]].
Qed.

Lemma prints_from_bookkeeping a nu j ep c :
  c = S j * num_steps a →
  prints_from (num_processes a) c
    (save_calls a nu j ++ print_calls a j ep ++ evaluate_calls a j ep)
  ∧ calls_of SStep
      (save_calls a nu j ++ print_calls a j ep ++ evaluate_calls a j ep) = 0.
Proof.
  intros ->. unfold save_calls, print_calls, evaluate_calls.
  assert (((Z.of_nat j + 1) * Z.of_nat (num_processes a)
           * Z.of_nat (num_steps a))%Z
          = Z.of_nat (S j * num_steps a * num_processes a)) as Hn by lia.
  rewrite Hn. clear Hn. generalize (S j * num_steps a). intros c.
  destruct (_ && _); destruct (_ && _); destruct (eval_interval a);
    try destruct (_ && _); unfold calls_of; simpl; rewrite ?Nat.add_0_r;
    by split_and!.
Qed.

(** X12 (main.py lines 209-219): every progress line of a run that returns
    reports, as its number of timesteps, exactly the number of environment
    transitions collected from the start of the run up to that line:
    the environment steps before it times the number of processes. *)
Theorem print_reports_transitions a np0 w' pre j n post :
  main a np0 = inr w' →
  events w' = pre ++ EvPrint j n :: post →
  n = Z.of_nat (transitions (num_processes a) pre).
Proof.
  intros (nu&w0&w1&Hsetup&Hnu&Hloop&->)%main_inr Hev.
  assert (prints_from (num_processes a) 0 (events w1)
          ∧ calls_of SStep (events w1) = length (range nu) * num_steps a)
    as [Hprints _].
  { revert Hloop. generalize w1. apply wp_elim.
    eapply wp_mono;
      [apply (wp_for_each (λ done w,
         prints_from (num_processes a) 0 (events w)
         ∧ calls_of SStep (events w) = length done * num_steps a))
      | |done]; [| |done].
    - apply setup_inr in Hsetup as (->&_). by split_and!.
    - intros done k suf u Hl [Hpr Hcount]. apply wp_run. intros [] u' Hit.
      apply seq_middle in Hl as ->.
      apply train_iteration_trace in Hit as (front&->&Hall&Hst).
      assert (calls_of SStep front = num_steps a) as Hfront.
      { unfold calls_of. rewrite Hst. apply cycle_count_step. }
      destruct (prints_from_bookkeeping a nu (length done) (episode_rewards u')
                  (calls_of SStep (events u) + calls_of SStep front))
        as [Hbook Hzero]; [lia|].
      split.
      + apply prints_from_app. split; [done|].
        apply prints_from_app. split; [by eapply prints_from_front|].
        by rewrite Nat.add_0_l.
      + rewrite (calls_of_app _ (events u)), (calls_of_app _ front), Hzero.
        rewrite length_app. simpl. lia. }
  rewrite events_emit in Hev.
  assert (prints_from (num_processes a) 0
            (events w1 ++ [EvDump (log_mean_file a) (mean_episode_rewards w1)]))
    as Hall.
  { apply prints_from_app. by split. }
  rewrite Hev in Hall. apply prints_from_app in Hall as [_ [Hn _]].
  rewrite Hn. unfold transitions. f_equal.
Qed.

(** *** The discriminator phase *)

Lemma discr_update_step_inr w w' :
  discr_update_step w = inr (tt, w') →
  events w' = events w ++ [EvDiscrUpdate].
Proof.
  unfold discr_update_step, get_discr, mbind, M_bind, gets, emit, modify.
  simpl. destruct (discr w); [|done]. simpl. intros [= <-].
  apply events_emit.
Qed.

Lemma discr_update_loop_inr {A} (l : list A) w w' :
  for_each l (λ _, discr_update_step) w = inr (tt, w') →
  events w' = events w ++ replicate (length l) EvDiscrUpdate.
Proof.
  revert w. induction l as [|x l IH]; intros w; simpl.
  - unfold mret, M_ret. intros [= <-]. by rewrite app_nil_r.
  - intros ([]&w1&Hstep%discr_update_step_inr&Hrest%IH)%bind_inr.
    by rewrite Hrest, Hstep, <- app_assoc.
Qed.

(** X13 (main.py lines 172-186): in iteration [j] of a run with a
    discriminator, the discriminator phase makes these calls and no others,
    in this order: from iteration 10 on, one switch of the environments'
    normalisation to evaluation mode; then 100 updates of the
    discriminator in each of the first ten iterations (the warm-up) and
    [gail_epoch] updates in every later one; then one reward prediction
    for each of the [num_steps] slots, slot 0 first, with [args.gamma]. *)
Theorem gail_phase_calls a j w w' :
  gail_phase a j w = inr (tt, w') →
  ∃ prs,
    events w'
    = events w
      ++ (if decide (10 ≤ j) then [EvEnvEval] else [])
      ++ replicate (if decide (j < 10) then 100 else Z.to_nat (gail_epoch a))
           EvDiscrUpdate
      ++ prs
    ∧ length prs = num_steps a
    ∧ ∀ t, t < num_steps a →
        ∃ o ac m r, prs !! t = Some (EvPredictReward t o ac (gamma a) m r).
Proof.
  unfold gail_phase.
  intros ([]&w1&Hwhen&([]&w2&Hloop&Hpred)%bind_inr)%bind_inr.
  apply when_inr in Hwhen.
  assert (events w1 = events w ++ (if decide (10 ≤ j) then [EvEnvEval] else []))
    as Hev1.
  { revert Hwhen. destruct (decide (10 ≤ j)) as [Hj|Hj].
    - rewrite bool_decide_eq_true_2 by done.
      unfold mbind, M_bind, emit, modify. simpl. intros [= <-]. events_done.
    - rewrite bool_decide_eq_false_2 by done. intros ->.
      by rewrite app_nil_r. }
  apply discr_update_loop_inr in Hloop.
  assert (length (range (if decide (j < 10) then 100%Z else gail_epoch a))
          = (if decide (j < 10) then 100 else Z.to_nat (gail_epoch a)))
    as Hlen.
  { unfold range. rewrite length_seq.
    destruct (decide (j < 10)); reflexivity. }
  rewrite Hlen in Hloop.
  assert (wp (for_each (seq 0 (num_steps a)) (predict_step a))
            (λ _ w', predict_progress a (num_steps a) w2 w') (λ _, True) w2)
    as Hwp by (by apply predict_loop_spec).
  destruct (wp_inr _ _ _ _ _ _ Hwp Hpred) as (_&_&(prs&Hev&Hl&Hprs)&_).
  exists prs. split_and!; [|done|].
  - by rewrite Hev, Hloop, Hev1, <- !app_assoc.
  - intros t Ht. destruct (Hprs t Ht) as (d&o&ac&m&_&_&_&Hp&_).
    by eexists o, ac, m, _.
Qed.

(** *** From one collection step to the next *)

(** X14 (main.py lines 141-143 and 164-165): inside a cycle, the policy
    acts at step [t+1] on exactly the observation (after the flicker), the
    hidden state and the continuation mask that the insertion of step [t]
    has put into the buffer; the act is the first call of step [t+1]. *)
Theorem collect_steps_chain a t w w1 w2 :
  collect_step a t w = inr (tt, w1) →
  collect_step a (S t) w1 = inr (tt, w2) →
  step (rollouts w) = t →
  ∃ o h m ac lp v r bm front back,
    events w1 = events w ++ front ++ [EvInsert o h ac lp v r m bm]
    ∧ events w2 = events w1 ++ EvAct o h m false :: back.
Proof.
  intros (o&h&m&v&ac&lp&hid&g'&o1&r&d&i&e'&o2&_&_&_&_&_&_&Hev&Hins&_)
           %collect_step_inr
         (o'&h'&m'&v'&ac'&lp'&hid'&g''&o1'&r'&d'&i'&e''&o2'
          &Ho&Hh&Hm&_&_&_&Hev'&_)%collect_step_inr Hstep.
  apply insert_inr in Hins as (_&_&_&Hobs&Hhid&Hmasks&_).
  rewrite Hstep in *.
  assert (o' = o2) as ->.
  { rewrite Hobs in Ho. pose proof (lookup_lt_Some _ _ _ Ho) as Hlt.
    rewrite length_insert in Hlt.
    rewrite list_lookup_insert_eq in Ho by done. congruence. }
  assert (h' = hid) as ->.
  { rewrite Hhid in Hh. pose proof (lookup_lt_Some _ _ _ Hh) as Hlt.
    rewrite length_insert in Hlt.
    rewrite list_lookup_insert_eq in Hh by done. congruence. }
  assert (m' = done_mask <$> d) as ->.
  { rewrite Hmasks in Hm. pose proof (lookup_lt_Some _ _ _ Hm) as Hlt.
    rewrite length_insert in Hlt.
    rewrite list_lookup_insert_eq in Hm by done. congruence. }
  exists o2, hid, (done_mask <$> d), ac, lp, v, r, (bad_mask <$> i).
  eexists ([EvAct o h m false; EvStep ac o1 r d i]
           ++ (if flicker a
               then [EvFlicker (np_uniform (numpy w) (length o1)).1]
               else [])), _.
  split.
  - by rewrite Hev, <- !app_assoc.
  - rewrite Hev'. simpl. done.
Qed.

(** *** A zero interval *)

Lemma bookkeeping_zero_interval a nu j w :
  save_interval a = 0%Z ∨ log_interval a = 0%Z →
  bookkeeping a nu j w = inl ZeroDivisionError.
Proof.
  intros Hz. unfold bookkeeping, save_checkpoint, print_progress.
  unfold mbind, M_bind, lift, modulo, when, emit, modify, mret, M_ret.
  destruct (decide (save_interval a = 0%Z)) as [Hs|Hs]; [done|].
  destruct Hz as [?|Hl]; [done|].
  destruct (_ && _); simpl; by rewrite decide_True.
Qed.

(** X15 (main.py lines 196 and 209): with a save interval or a log interval
    of zero, a run that has at least one iteration to make raises
    ZeroDivisionError: the remainder of line 196 or of line 209 is taken
    in the bookkeeping of the first iteration, whatever the episodes on
    record. *)
Theorem zero_interval_stops_first_iteration a np0 w0 nu :
  setup a np0 = inr w0 → num_updates a = inr nu → (0 < nu)%Z →
  env_typed → ¬ misaligned a →
  save_interval a = 0%Z ∨ log_interval a = 0%Z →
  main a np0 = inl ZeroDivisionError.
Proof.
  intros Hsetup Hnu Hpos Htyped Hmis Hz. unfold main. rewrite Hsetup.
  destruct (training a w0) as [e|[[] w1]] eqn:Hrun.
  - f_equal.
    eapply (wp_inl _ _ (λ e, e = ZeroDivisionError)); [|exact Hrun].
    apply (setup_training a np0 w0); [done| | |]; tauto.
  - exfalso. unfold training in Hrun.
    apply bind_inr in Hrun as (nu'&w0'&[Hnu' ->]%lift_inr&Hrun).
    assert (nu' = nu) as -> by congruence.
    apply bind_inr in Hrun as ([]&w2&Hloop&_).
    unfold range in Hloop.
    destruct (Z.to_nat nu) as [|k] eqn:Hk; [lia|]. simpl in Hloop.
    apply bind_inr in Hloop as ([]&w3&Hit&_).
    apply train_iteration_inr in Hit as (u1&u2&u3&_&_&_&Hbook).
    by rewrite bookkeeping_zero_interval in Hbook.
Qed.

(** *** Reports wait for two episodes *)

Lemma reports_from_app c evs1 evs2 :
  reports_from c (evs1 ++ evs2)
  ↔ reports_from c evs1
    ∧ reports_from (c + length (reported_returns evs1)) evs2.
Proof.
  revert c. induction evs1 as [|ev evs1 IH]; intros c; simpl.
  - replace (c + length (reported_returns [])) with c
      by (unfold reported_returns; simpl; lia).
    tauto.
  - rewrite IH.
    replace (c + length (reported_returns (ev :: evs1)))
      with (c + length (reported_returns [ev])
            + length (reported_returns evs1))
      by (change (ev :: evs1) with ([ev] ++ evs1);
          rewrite (reported_returns_app [ev] evs1), length_app; lia).
    tauto.
Qed.

Lemma reports_from_front a c evs :
  Forall (λ ev, collect_event a ev ∨ estimation_event a ev) evs →
  reports_from c evs.
Proof.
  intros Hall. revert c. induction Hall as [|ev evs Hev _ IH]; intros c.
  - done.
  - simpl. split; [|apply IH]. by destruct Hev as [[]|[]].
Qed.

Lemma reports_from_bookkeeping a nu j ep c :
  length ep ≤ c →
  reports_from c
    (save_calls a nu j ++ print_calls a j ep ++ evaluate_calls a j ep).
Proof.
  intros Hc. unfold save_calls, print_calls, evaluate_calls.
  destruct (bool_decide (1 < length ep)) eqn:Hlen.
  - apply bool_decide_eq_true_1 in Hlen. rewrite !andb_true_r.
    destruct (_ && _); destruct (bool_decide _);
      destruct (eval_interval a); try destruct (bool_decide _);
      simpl; split_and?; try done; lia.
  - rewrite !andb_false_r. simpl.
    destruct (_ && _); destruct (eval_interval a); simpl; by split_and?.
Qed.

Lemma length_last_n_le {A} n (l : list A) : length (last_n n l) ≤ length l.
Proof. unfold last_n. rewrite length_drop. lia. Qed.

Lemma recorded_at_app evs new me mx :
  recorded_at evs me mx → recorded_at (evs ++ new) me mx.
Proof.
  intros (pre&post&->&Hrec). exists pre, (post ++ new).
  by rewrite <- app_assoc.
Qed.

Lemma recorded_all_app evs new (means maxs : row) :
  Forall2 (recorded_at evs) means maxs →
  Forall2 (recorded_at (evs ++ new)) means maxs.
Proof.
  intros Hrec. eapply Forall2_impl; [exact Hrec|].
  intros me mx. apply recorded_at_app.
Qed.

(** X16 (main.py lines 209, 221 and 228-230, the guards
    [len(episode_rewards) > 1]): in a run that returns, every progress
    line and every evaluation comes after at least two episode returns
    have been reported by environment steps, and the lists of means and of
    maxima hold, entry by entry, the mean and the maximum of the deque as
    it stood at some point of the run where it held at least two returns,
    that is, of the last ten returns reported up to that point. *)
Theorem reports_need_two_episodes a np0 w' :
  main a np0 = inr w' →
  (∀ pre j n post, events w' = pre ++ EvPrint j n :: post →
     2 ≤ length (reported_returns pre))
  ∧ (∀ pre j post, events w' = pre ++ EvEvaluate j :: post →
       2 ≤ length (reported_returns pre))
  ∧ Forall2 (recorded_at (events w'))
      (mean_episode_rewards w') (max_episode_rewards w').
Proof.
  intros Hmain.
  pose proof Hmain as (nu&w0&w1&Hsetup&Hnu&_&_)%main_inr.
  destruct (invariant_main a nu
              (λ _ w,
                 episode_rewards w = last_n 10 (reported_returns (events w))
                 ∧ reports_from 0 (events w)
                 ∧ Forall2 (recorded_at (events w))
                     (mean_episode_rewards w) (max_episode_rewards w)))
    with np0 w0 w' as (w2&(HP1&HP2&HP3)&_&->); try done.
  - intros j w w2 evs (HP1&HP2&HP3) Hevs -> -> -> ->.
    pose proof (estimation_events_quiet _ _ Hevs) as [Hq _].
    split_and!; [by rewrite reported_returns_app, Hq, app_nil_r|
                |by apply recorded_all_app].
    apply reports_from_app. split; [done|].
    apply (reports_from_front a). eapply Forall_impl; [exact Hevs|]. by right.
  - intros j t w w2 (HP1&HP2&HP3)
      (new&infos&->&Hall&Hnew&->&->&Hep)%collect_step_effect.
    split_and!; [| |by apply recorded_all_app].
    + rewrite reported_returns_app, Hnew, Hep.
      * by rewrite HP1, last_n_app.
      * rewrite HP1. apply length_last_n.
    + apply reports_from_app. split; [done|].
      apply (reports_from_front a). eapply Forall_impl; [exact Hall|].
      by left.
  - intros j w w2 (HP1&HP2&HP3) Hj (->&->&Hm)%bookkeeping_effect.
    split_and!.
    + rewrite reported_returns_app.
      by rewrite (proj1 (bookkeeping_calls_quiet _ _ _ _)), app_nil_r.
    + apply reports_from_app. split; [done|].
      apply reports_from_bookkeeping. rewrite HP1. simpl.
      apply length_last_n_le.
    + destruct (bool_decide (j `mod` 10 = 0)); simpl in Hm;
        [|injection Hm as -> ->; by apply recorded_all_app].
      destruct (bool_decide (1 < length (episode_rewards w))) eqn:Hlen;
        [|injection Hm as -> ->; by apply recorded_all_app].
      apply bool_decide_eq_true_1 in Hlen. injection Hm as -> ->.
      apply Forall2_app; [by apply recorded_all_app|].
      constructor; [|constructor].
      eexists (events w), _. split; [done|]. simpl.
      rewrite <- HP1. split_and!; [lia|done|done].
  - pose proof (setup_statistics _ _ _ Hsetup) as (->&->&->).
    apply setup_inr in Hsetup as (->&_). split_and!; [done|done|].
    constructor.
  - assert (reports_from 0
              (events (with_log
                 (EvDump (log_mean_file a) (mean_episode_rewards w2) :: log w2)
                 w2))) as Hall.
    { rewrite events_emit. apply reports_from_app. by split. }
    split_and!.
    + intros pre j n post Hev. rewrite Hev in Hall.
      by apply reports_from_app in Hall as [_ [Hn _]].
    + intros pre j post Hev. rewrite Hev in Hall.
      by apply reports_from_app in Hall as [_ [Hn _]].
    + rewrite events_emit. simpl. by apply recorded_all_app.
Qed.


End Proofs.

(** * The claims on the toy instance *)

Import Toy.

(** A run that returns, as a test that evaluates. *)
Definition succeeds {A} (r : exn + A) : bool :=
  match r with
  | inr _ => true
  | inl _ => false
  end.

Lemma succeeds_inr {A} (r : exn + A) : succeeds r = true → ∃ x, r = inr x.
Proof. destruct r as [e|x]; [discriminate|]. intros _. by exists x. Defined.

Lemma succeeds_run {A} (r : exn + A * World) :
  succeeds r = true → ∃ x w', r = inr (x, w').
Proof. destruct r as [e|[x w']]; [discriminate|]. intros _. by exists x, w'. Defined.

Lemma succeeds_unit (r : exn + unit * World) :
  succeeds r = true → ∃ w', r = inr (tt, w').
Proof. destruct r as [e|[[] w']]; [discriminate|]. intros _. by exists w'. Defined.

Example toy_setup np0 : setup args np0 = inr (start np0).
Proof. reflexivity. Qed.

Example toy_gail_setup : setup gail_args 0%Z = inr gail_start.
Proof. reflexivity. Qed.

Example toy_num_updates : num_updates args = inr 2%Z.
Proof. reflexivity. Qed.

Lemma toy_at_iteration_0 np0 : at_iteration args np0 2 0 (start np0).
Proof. exists (start np0). by split_and!. Defined.

Lemma toy_iteration_0 : ∃ w', train_iteration args 2 0 (start 0%Z) = inr (tt, w').
Proof. apply succeeds_unit. vm_compute. reflexivity. Defined.

Lemma toy_collect_step_0 : ∃ w', collect_step args 0 (start 0%Z) = inr (tt, w').
Proof. apply succeeds_unit. vm_compute. reflexivity. Defined.

Lemma toy_main np0 : (np0 = 0 ∨ np0 = 1)%Z → ∃ w', main args np0 = inr w'.
Proof. intros [->| ->]; apply succeeds_inr; vm_compute; reflexivity. Defined.

Lemma toy_gail_iteration_0 :
  ∃ w', train_iteration gail_args 2 0 gail_start = inr (tt, w').
Proof. apply succeeds_unit. vm_compute. reflexivity. Defined.

(** The scenario of the spec (section 8): with γ = 0.99 and a zero bootstrap
    value, lane 0 has return[2] = 1 and lane 1 has return[4] = 1 and
    return[3] = 1.99. *)
Example scenario_returns :
  let table := return_table [0%Qc; 0%Qc] false (Q2Qc (99 # 100)) (Q2Qc (95 # 100))
                 false scenario in
  cell table 2 0 = 1%Qc
  ∧ cell table 4 1 = 1%Qc
  ∧ cell table 3 1 = Q2Qc (199 # 100).
Proof. split_and!; apply Qc_is_canon; by vm_compute. Qed.

Lemma C1_iteration_stage_sequence_witness :
  ∃ w', train_iteration args 2 0 (start 0%Z) = inr (tt, w')
    ∧ ∃ evs, events w' = events (start 0%Z) ++ evs
        ∧ stages evs
          = [SAct; SStep; SInsert; SAct; SStep; SInsert;
             SComputeReturns; SUpdate; SAfterUpdate].
Proof.
  destruct toy_iteration_0 as [w' Hrun]. exists w'. split; [exact Hrun|].
  exact (C1_iteration_stage_sequence args 2 0 (start 0%Z) w' Hrun).
Defined.

(** C1 as stated fails: in iteration 0 of the run on [args] (two collection
    steps) the insertion of step 0, a call of the third stage, comes before
    the act of step 1, a call of the first stage. *)
Lemma C1_later_stage_precedes_earlier :
  ∃ w', at_iteration args 0%Z 2 0 (start 0%Z)
    ∧ train_iteration args 2 0 (start 0%Z) = inr (tt, w')
    ∧ ¬ stages_in_order (stages (drop (length (events (start 0%Z))) (events w'))).
Proof.
  destruct toy_iteration_0 as [w' Hrun]. exists w'.
  split; [apply toy_at_iteration_0|]. split; [exact Hrun|].
  destruct (train_iteration_stages _ _ _ _ _ Hrun) as (evs&Hev&Hst).
  rewrite Hev, drop_app_length, Hst.
  intros Hord. specialize (Hord 2 3 SInsert SAct).
  specialize (Hord (le_n 3) eq_refl eq_refl). simpl in Hord. lia.
Qed.

Lemma C2_masks_from_done_and_info_witness :
  ∃ w', collect_step args 0 (start 0%Z) = inr (tt, w')
    ∧ ∃ ms bms,
        masks (rollouts w') = <[1 := ms]> (masks (rollouts (start 0%Z)))
        ∧ bad_masks (rollouts w') = <[1 := bms]> (bad_masks (rollouts (start 0%Z)))
        ∧ length ms = 2 ∧ length bms = 2.
Proof.
  destruct toy_collect_step_0 as [w' Hrun]. exists w'. split; [exact Hrun|].
  destruct (C2_masks_from_done_and_info args 0 (start 0%Z) w' Hrun)
    as (ac&o&r&done&infos&e'&front&o'&h&lp&v&ms&bms&Hstep&_&Hm&Hbm&Hl1&Hl2&_).
  exists ms, bms. injection Hstep as _ _ <- <- _.
  split_and!; [exact Hm|exact Hbm|exact Hl1|exact Hl2].
Defined.


Lemma C4_buffer_protocol_witness :
  ∃ w', main args 0%Z = inr w'
    ∧ ∃ nu, num_updates args = inr nu
        ∧ buffer_calls (events w')
          = mjoin (replicate (Z.to_nat nu) [BInsert; BInsert; BUpdate; BAfterUpdate]).
Proof.
  destruct (toy_main 0%Z) as [w' Hrun]; [by left|].
  exists w'. split; [exact Hrun|].
  exact (proj2 (proj2 (@C4_buffer_protocol spaces collaborators args 0%Z)) w' Hrun).
Defined.

Lemma C5_slot0_carry_forward_witness :
  ∃ w', train_iteration args 2 0 (start 0%Z) = inr (tt, w')
    ∧ at_iteration args 0%Z 2 1 w'
    ∧ ∃ w2 o,
        (collection_phase args 2 0 ≫= λ _, estimation_phase args 0) (start 0%Z)
          = inr (tt, w2)
        ∧ obs (rollouts w2) !! 2 = Some o
        ∧ obs (rollouts w') !! 0 = Some o.
Proof.
  destruct toy_iteration_0 as [w' Hrun]. exists w'. split; [exact Hrun|].
  destruct (proj2 (proj2 (@C5_slot0_carry_forward spaces collaborators args 0%Z))
              2%Z 0 (start 0%Z) w'
              (toy_at_iteration_0 0%Z) Hrun)
    as (Hnext&w1&w2&o&h&m&Hc&He&Ho&_&_&Ho'&_).
  split; [apply Hnext; lia|].
  exists w2, o. split_and!; [|exact Ho|exact Ho'].
  unfold mbind, M_bind. rewrite Hc. exact He.
Defined.

Lemma C6_terminal_blocks_leakage_witness :
  cell (returns (compute_returns [Qc_of_Z 700] true (Q2Qc (99 # 100))
                   (Q2Qc (95 # 100)) true
                   (storage [[1%Qc]; [Qc_of_Z 100]]
                      [[Qc_of_Z 2]; [Qc_of_Z 300]; [Qc_of_Z 400]]))) 0 0
  = cell (returns (compute_returns [Qc_of_Z 7] true (Q2Qc (99 # 100))
                     (Q2Qc (95 # 100)) true
                     (storage [[1%Qc]; [Qc_of_Z 5]]
                        [[Qc_of_Z 2]; [Qc_of_Z 3]; [Qc_of_Z 4]]))) 0 0.
Proof.
  apply C6_terminal_blocks_leakage; simpl; try lia; try reflexivity.
  - intros s Hs. replace s with 0 by lia. reflexivity.
  - intros s Hs. replace s with 0 by lia. reflexivity.
Defined.

Lemma C7_gail_rewards_witness :
  ∃ w', train_iteration gail_args 2 0 gail_start = inr (tt, w')
    ∧ ∃ prs, length prs = 2
        ∧ ∀ t, t < 2 → ∃ d o ac m r,
            prs !! t = Some (EvPredictReward t o ac (Q2Qc (99 # 100)) m r)
            ∧ r = (predict_reward d o ac (Q2Qc (99 # 100)) m).1
            ∧ rewards (rollouts w') !! t = Some r.
Proof.
  destruct toy_gail_iteration_0 as [w' Hrun]. exists w'. split; [exact Hrun|].
  destruct (C7_gail_rewards gail_args 2 0 gail_start w' eq_refl Hrun)
    as (w1&front&prs&nv&bg&back&_&_&Hlen&Hprs&_&Hrew).
  exists prs. split; [exact Hlen|].
  intros t Ht. destruct (Hprs t Ht) as (d&o&ac&m&_&_&_&Hp&Hr).
  exists d, o, ac, m, (predict_reward d o ac (Q2Qc (99 # 100)) m).1.
  split_and!; [exact Hp|reflexivity|].
  rewrite Hrew. exact Hr.
Defined.

(** The observation buffer at the end of a run, if the run returns. *)
Definition final_obs (r : exn + World) : option (list (list Z)) :=
  match r with
  | inr w => Some (obs (rollouts w))
  | inl _ => None
  end.

(** C8 fails on the code: [args] has [flicker] set; the two runs below have
    the same arguments, the same seed and the same collaborators, and differ
    only in the state in which numpy's global generator, which [main] never
    seeds, happens to start. Their buffers differ. *)
Lemma C8_flicker_depends_on_unseeded_numpy :
  ∃ w1 w2, main args 0%Z = inr w1
    ∧ main args 1%Z = inr w2
    ∧ obs (rollouts w1) ≠ obs (rollouts w2).
Proof.
  destruct (toy_main 0%Z) as [w1 H1]; [by left|].
  destruct (toy_main 1%Z) as [w2 H2]; [by right|].
  exists w1, w2. split_and!; [done|done|]. intros Heq.
  assert (final_obs (main args 0%Z) ≠ final_obs (main args 1%Z)) as Hne
    by (vm_compute; discriminate).
  apply Hne. rewrite H1, H2. simpl. by rewrite Heq.
Qed.


Lemma C10_update_count_witness :
  ∃ w', main args 0%Z = inr w'
    ∧ ∃ nu : Z, nu = 2%Z
        ∧ Z.of_nat (update_cycles (events w')) = nu
        ∧ Z.of_nat (transitions 2 (events w')) = (nu * 2 * 2)%Z
        ∧ (Qc_of_Z (nu * 2 * 2) ≤ Qc_of_Z 9)%Qc.
Proof.
  destruct (toy_main 0%Z) as [w' Hrun]; [by left|].
  exists w'. split; [exact Hrun|].
  apply (@C10_update_count spaces collaborators args 0%Z w');
    [by vm_compute|exact Hrun].
Defined.

(** C10 as stated fails: on a budget of -7 environment steps, with two steps
    and two processes, int(num_env_steps) // num_steps // num_processes is
    -2, while the run returns after no update cycle and no transition. *)
Lemma C10_negative_budget :
  ∃ w', main Cases.negative_budget_args 0%Z = inr w'
    ∧ ((int (num_env_steps Cases.negative_budget_args)
          `div` Z.of_nat (num_steps Cases.negative_budget_args))
         `div` Z.of_nat (num_processes Cases.negative_budget_args) = -2)%Z
    ∧ Z.of_nat (update_cycles (events w')) ≠ (-2)%Z
    ∧ transitions (num_processes Cases.negative_budget_args) (events w') = 0.
Proof.
  assert (∃ w', main Cases.negative_budget_args 0%Z = inr w'
                ∧ transitions 2 (events w') = 0) as (w'&Hrun&Htr).
  { assert (succeeds (main Cases.negative_budget_args 0%Z) = true) as Hs
      by (vm_compute; reflexivity).
    apply succeeds_inr in Hs as [w' Hrun]. exists w'. split; [done|].
    assert (match main Cases.negative_budget_args 0%Z with
            | inr w => transitions 2 (events w)
            | inl _ => 1
            end = 0) as Hz by (vm_compute; reflexivity).
    by rewrite Hrun in Hz. }
  exists w'. split_and!; [done|by vm_compute|lia|done].
Qed.

(** * The further properties on the toy instance *)

Import Cases.

Lemma toy_env_typed : env_typed.
Proof.
  intros e acts i b Hi. simpl in Hi.
  apply list_elem_of_fmap in Hi as (k&->&_).
  unfold toy_info. repeat case_decide.
  - rewrite lookup_insert_ne by done. by rewrite lookup_singleton_eq.
  - by rewrite lookup_singleton_eq.
  - by rewrite lookup_empty.
Qed.

Lemma toy_aligned a : algo a = a2c → ¬ misaligned a.
Proof. intros Ha (Hp&_). congruence. Qed.

Lemma main_zero_division_witness :
  num_steps zero_step_args = 0
  ∧ main zero_step_args 0%Z = inl ZeroDivisionError.
Proof.
  split; [reflexivity|].
  eapply (@main_zero_division spaces collaborators zero_step_args 0%Z);
    [reflexivity|left; reflexivity].
Defined.

Lemma main_without_iterations_witness :
  ∃ w0 w', setup short_args 0%Z = inr w0
    ∧ main short_args 0%Z = inr w'
    ∧ events w' = events w0 ++ [EvDump "/tmp/gym/mean_rewards_FNN8.txt" []]
    ∧ rollouts w' = rollouts w0.
Proof.
  assert (∃ w0, setup short_args 0%Z = inr w0) as [w0 Hsetup]
    by (eexists; reflexivity).
  destruct (@main_without_iterations spaces collaborators short_args 0%Z w0
              Hsetup) as (w'&Hrun&Hev&Hro);
    [simpl; lia|simpl; lia|by vm_compute|].
  exists w0, w'. split_and!; [exact Hsetup|exact Hrun|exact Hev|exact Hro].
Defined.

Lemma toy_record_episodes :
  ∃ w', record_episodes [toy_info 2 0; toy_info 2 1; toy_info 1 1] (start 0%Z)
        = inr (tt, w').
Proof. apply succeeds_unit. vm_compute. reflexivity. Defined.

Lemma record_episodes_keeps_last_ten_witness :
  ∃ w', record_episodes [toy_info 2 0; toy_info 2 1; toy_info 1 1] (start 0%Z)
        = inr (tt, w')
    ∧ episode_rewards w'
      = last_n 10 (episode_rewards (start 0%Z)
                   ++ episode_returns [toy_info 2 0; toy_info 2 1; toy_info 1 1])
    ∧ length (episode_rewards w') ≤ 10.
Proof.
  destruct toy_record_episodes as [w' Hrun]. exists w'. split; [exact Hrun|].
  apply (@record_episodes_keeps_last_ten spaces collaborators _ _ _ Hrun).
  simpl. lia.
Defined.

Lemma policy_calls_without_gradients_witness :
  ∃ w', main args 0%Z = inr w'
    ∧ (∀ o h m g, EvAct o h m g ∈ events w' → g = false)
    ∧ (∀ o h m g v, EvGetValue o h m g v ∈ events w' → g = false)
    ∧ grad_enabled w' = true.
Proof.
  destruct (toy_main 0%Z) as [w' Hrun]; [by left|].
  exists w'. split; [exact Hrun|].
  exact (@policy_calls_without_gradients spaces collaborators args 0%Z w' Hrun).
Defined.

Lemma optional_calls_need_their_flags_witness :
  ∃ w', main args 0%Z = inr w'
    ∧ (EvDiscrUpdate ∈ events w' → gail args = true)
    ∧ (∀ j, EvEvaluate j ∈ events w' → eval_interval args ≠ None).
Proof.
  destruct (toy_main 0%Z) as [w' Hrun]; [by left|].
  exists w'. split; [exact Hrun|].
  destruct (@optional_calls_need_their_flags spaces collaborators args 0%Z w'
              Hrun) as (_&_&_&Hd&_&_&He).
  split; [exact Hd|exact He].
Defined.

Lemma main_checkpoints_witness :
  ∃ w', main args 0%Z = inr w' ∧ checkpoints (events w') = [0; 1].
Proof.
  destruct (toy_main 0%Z) as [w' Hrun]; [by left|].
  exists w'. split; [exact Hrun|].
  exact (@main_checkpoints spaces collaborators args 0%Z 2%Z w' Hrun eq_refl).
Defined.

Lemma main_episode_record_witness :
  ∃ w', main args 0%Z = inr w'
    ∧ episode_rewards w' = last_n 10 (reported_returns (events w')).
Proof.
  destruct (toy_main 0%Z) as [w' Hrun]; [by left|].
  exists w'. split; [exact Hrun|].
  exact (@main_episode_record spaces collaborators args 0%Z w' Hrun).
Defined.


(** The first progress line of a trace: its iteration and its number of
    timesteps. *)
Fixpoint first_print (evs : list Event) : option (nat * Z) :=
  match evs with
  | [] => None
  | EvPrint j n :: _ => Some (j, n)
  | _ :: evs' => first_print evs'
  end.

Definition printed (r : exn + World) : option (nat * Z) :=
  match r with
  | inr w => first_print (events w)
  | inl _ => None
  end.

Lemma first_print_split evs j n :
  first_print evs = Some (j, n) → ∃ pre post, evs = pre ++ EvPrint j n :: post.
Proof.
  induction evs as [|ev evs IH]; [done|].
  destruct ev; simpl; try (intros (pre&post&->)%IH; by eexists (_ :: pre), post).
  intros [= -> ->]. by exists [], evs.
Qed.

Lemma print_reports_transitions_witness :
  ∃ w' pre post,
    main chatty_args 0%Z = inr w'
    ∧ events w' = pre ++ EvPrint 1 8 :: post
    ∧ 8%Z = Z.of_nat (transitions 2 pre).
Proof.
  assert (printed (main chatty_args 0%Z) = Some (1, 8%Z)) as Hp
    by (vm_compute; reflexivity).
  destruct (@main spaces collaborators chatty_args 0%Z) as [e|w'] eqn:Hrun;
    [discriminate|].
  apply first_print_split in Hp as (pre&post&Hev).
  exists w', pre, post. split_and!; [reflexivity|exact Hev|].
  exact (@print_reports_transitions spaces collaborators chatty_args 0%Z w'
           pre 1 8%Z post Hrun Hev).
Defined.

Lemma toy_gail_phase_0 : ∃ w', gail_phase gail_args 0 gail_start = inr (tt, w').
Proof. apply succeeds_unit. vm_compute. reflexivity. Defined.

Lemma gail_phase_calls_witness :
  ∃ w' prs,
    gail_phase gail_args 0 gail_start = inr (tt, w')
    ∧ events w' = events gail_start ++ replicate 100 EvDiscrUpdate ++ prs
    ∧ length prs = 2.
Proof.
  destruct toy_gail_phase_0 as [w' Hrun].
  destruct (@gail_phase_calls spaces collaborators gail_args 0 gail_start w'
              Hrun) as (prs&Hev&Hlen&_).
  exists w', prs. split_and!; [exact Hrun|exact Hev|exact Hlen].
Defined.

Lemma toy_two_collect_steps :
  ∃ w2, (collect_step args 0 ≫= λ _, collect_step args 1) (start 0%Z)
        = inr (tt, w2).
Proof. apply succeeds_unit. vm_compute. reflexivity. Defined.

Lemma collect_steps_chain_witness :
  ∃ w1 w2 o h m ac lp v r bm front back,
    collect_step args 0 (start 0%Z) = inr (tt, w1)
    ∧ collect_step args 1 w1 = inr (tt, w2)
    ∧ events w1 = events (start 0%Z) ++ front ++ [EvInsert o h ac lp v r m bm]
    ∧ events w2 = events w1 ++ EvAct o h m false :: back.
Proof.
  destruct toy_two_collect_steps as [w2 Hrun].
  apply bind_inr in Hrun as ([]&w1&H1&H2).
  destruct (@collect_steps_chain spaces collaborators args 0 (start 0%Z) w1 w2
              H1 H2 eq_refl)
    as (o&h&m&ac&lp&v&r&bm&front&back&Hev1&Hev2).
  exists w1, w2, o, h, m, ac, lp, v, r, bm, front, back.
  split_and!; [exact H1|exact H2|exact Hev1|exact Hev2].
Defined.

Lemma zero_interval_stops_first_iteration_witness :
  save_interval zero_interval_args = 0%Z
  ∧ main zero_interval_args 0%Z = inl ZeroDivisionError.
Proof.
  split; [reflexivity|].
  eapply (@zero_interval_stops_first_iteration spaces collaborators
            zero_interval_args 0%Z _ 2%Z);
    [reflexivity|reflexivity|reflexivity|exact toy_env_typed
    |by apply toy_aligned|left; reflexivity].
Defined.

Lemma reports_need_two_episodes_witness :
  ∃ w' pre post,
    main chatty_args 0%Z = inr w'
    ∧ events w' = pre ++ EvPrint 1 8 :: post
    ∧ 2 ≤ length (reported_returns pre).
Proof.
  assert (printed (main chatty_args 0%Z) = Some (1, 8%Z)) as Hp
    by (vm_compute; reflexivity).
  destruct (@main spaces collaborators chatty_args 0%Z) as [e|w'] eqn:Hrun;
    [discriminate|].
  apply first_print_split in Hp as (pre&post&Hev).
  exists w', pre, post. split_and!; [reflexivity|exact Hev|].
  exact (proj1 (@reports_need_two_episodes spaces collaborators chatty_args
                  0%Z w' Hrun) pre 1 8%Z post Hev).
Defined.
